(** * build-embeddings: the incremental indexing script

    A shallow embedding of [scripts/build-embeddings.mjs] and the
    properties of its helpers ([deriveSlug], [markdownToPlain],
    [chunkText]) and of its build driver (the main async function with its
    nested [flushBatch]).

    Conventions.
    - A JavaScript string is a [list ascii]: a sequence of code units, here
      restricted to the code units below 256.
    - The libraries the script calls ([path.relative], remark with
      strip-markdown, gray-matter, the transformers.js extractor) and the
      file system are Variables of a Section: the theorems hold for every
      behaviour of them, and the examples instantiate them with small
      stand-ins.
    - A call that can throw returns an [option]; the driver runs in a
      state-and-exception monad over the script's mutable variables. *)

From Stdlib Require Import List Ascii String ZArith Lia Bool Arith.
From Stdlib Require Import DecimalString DecimalNat DecimalFacts.
From stdpp Require Import gmap strings.
Import ListNotations.

Local Open Scope list_scope.
Local Open Scope bool_scope.

(** ** Strings *)

Abbreviation str := (list ascii).

(** String literals of the examples. *)
Definition lit (s : string) : str := list_ascii_of_string s.

Definition nl : ascii := "010"%char.
Definition isNl (c : ascii) : bool := Ascii.eqb c nl.

(** The class [\s] of a regular expression, which is also the set that
    [String.prototype.trim] strips: tab, line feed, vertical tab, form
    feed, carriage return, space and no-break space (the members below
    256). *)
Definition isSpace (c : ascii) : bool :=
  let n := nat_of_ascii c in
  ((9 <=? n) && (n <=? 13)) || (n =? 32) || (n =? 160).

Fixpoint trimStart (s : str) : str :=
  match s with
  | [] => []
  | c :: s' => if isSpace c then trimStart s' else s
  end.

Definition trimEnd (s : str) : str := rev (trimStart (rev s)).

(** [s.trim()] *)
Definition trim (s : str) : str := trimEnd (trimStart s).

(** [s.replace(/\s+/g, " ")]: every maximal run of white space becomes one
    space. [inRun] tells that the previous code unit belonged to the run
    being replaced. *)
Fixpoint replaceSpaceRuns (inRun : bool) (s : str) : str :=
  match s with
  | [] => []
  | c :: s' =>
      if isSpace c
      then (if inRun then replaceSpaceRuns true s'
            else " "%char :: replaceSpaceRuns true s')
      else c :: replaceSpaceRuns false s'
  end.

(** [s.toLowerCase()] on code units below 256: A-Z and the Latin-1 capitals
    (192-222 but the multiplication sign 215) move up by 32. *)
Definition lowerChar (c : ascii) : ascii :=
  let n := nat_of_ascii c in
  if ((65 <=? n) && (n <=? 90))
     || ((192 <=? n) && (n <=? 222) && negb (n =? 215))
  then ascii_of_nat (n + 32) else c.

Definition toLowerCase (s : str) : str := map lowerChar s.

(** [s.replace(/\\/g, "/")] *)
Definition backslashesToSlashes (s : str) : str :=
  map (fun c => if Ascii.eqb c "\"%char then "/"%char else c) s.

Definition str_eqb (a b : str) : bool := bool_decide (a = b).

(** [s.replace(/PAT$/, "")] for a pattern anchored at the end of the input:
    the engine tries the start positions from the left, and a match at a
    position is a match of [PAT] against all that remains, which the empty
    replacement then removes. [whole r] tells whether [PAT] matches exactly
    [r]. *)
Fixpoint replaceAtEnd (whole : str -> bool) (s : str) : str :=
  if whole s then []
  else match s with
       | [] => []
       | c :: s' => c :: replaceAtEnd whole s'
       end.

(** [/\.mdx?$/] *)
Definition isMdExt (r : str) : bool :=
  str_eqb r (lit ".md") || str_eqb r (lit ".mdx").

(** [/\/index$/] *)
Definition isSlashIndex (r : str) : bool := str_eqb r (lit "/index").

(** The decimal numeral that a template literal prints for an index. *)
Definition decimal (i : nat) : str :=
  lit (NilZero.string_of_uint (Nat.to_uint i)).

(** [text.split(/\n{2,}/g)]: the pieces between the maximal runs of two or
    more line feeds, a leading, trailing or only piece possibly empty.
    [inSep] tells that the scan is inside a separator, whose remaining line
    feeds the greedy quantifier consumes. *)
Definition consHead (c : ascii) (ps : list str) : list str :=
  match ps with
  | [] => [[c]]
  | p :: ps' => (c :: p) :: ps'
  end.

Fixpoint splitBlank (inSep : bool) (s : str) : list str :=
  match s with
  | [] => [[]]
  | c :: s' =>
      if isNl c then
        if inSep then splitBlank true s'
        else match s' with
             | c' :: _ =>
                 if isNl c' then [] :: splitBlank true s'
                 else consHead c (splitBlank false s')
             | [] => consHead c (splitBlank false s')
             end
      else consHead c (splitBlank false s')
  end.

Definition splitOnBlankLines (s : str) : list str := splitBlank false s.

(** ** Config *)

Definition CONTENT_DIR : str := lit "src/data/blog".
Definition BATCH_SIZE : nat := 16.
Definition MAX_CONCURRENCY : nat := 2.

(** ** Helpers *)

(** A fragment, [{id, text}]. *)
Record Chunk := { chunk_id : str; chunk_text : str }.

(** [paras.map((p, i) => ...)] *)
Fixpoint mapi_from {A B} (f : A -> nat -> B) (i : nat) (l : list A) : list B :=
  match l with
  | [] => []
  | x :: l' => f x i :: mapi_from f (S i) l'
  end.

Definition paraId (baseSlug : str) (i : nat) : str :=
  baseSlug ++ lit "#para-" ++ decimal i.

Definition chunkText (text baseSlug : str) : list Chunk :=
  let paras :=
    List.filter (fun p => 40 <? length (trim p)) (splitOnBlankLines text) in
  mapi_from (fun p i => {| chunk_id := paraId baseSlug i; chunk_text := p |})
            0 paras.

Section Helpers.

(** [path.relative(from, to)] of Node. *)
Variable path_relative : str -> str -> str.

(** [String(await remark().use(strip).process(md))] *)
Variable strip : str -> str.

(** The path branch of [deriveSlug], the [let slug = ...] chain together
    with the final [toLowerCase]. *)
Definition slugOfPath (filePath : str) : str :=
  toLowerCase
    (replaceAtEnd isSlashIndex
       (replaceAtEnd isMdExt
          (backslashesToSlashes (path_relative CONTENT_DIR filePath)))).

(** [fmSlug] is [undefined] ([None]) or a string; the empty string is
    falsy, so [fmSlug && fmSlug.trim()] holds for a string that is not
    empty and whose trimmed form is not empty. *)
Definition deriveSlug (filePath : str) (fmSlug : option str) : str :=
  match fmSlug with
  | Some s =>
      if negb (str_eqb s []) && negb (str_eqb (trim s) [])
      then trim s
      else slugOfPath filePath
  | None => slugOfPath filePath
  end.

Definition markdownToPlain (md : str) : str :=
  trim (replaceSpaceRuns false (strip md)).

End Helpers.

(** ** The build driver *)

(** The fields of the front matter that the script reads. [fm.slug],
    [fm.title] and [fm.description] are [undefined] or strings; [fm_draft]
    is the truthiness of [fm.draft]. *)
Record FrontMatter := {
  fm_slug : option str;
  fm_title : option str;
  fm_description : option str;
  fm_draft : bool
}.

(** [{ id, slug, title, description, mtime }] *)
Record Meta := {
  meta_id : str;
  meta_slug : str;
  meta_title : str;
  meta_description : str;
  meta_mtime : Z
}.

(** An element of [queue]: [{ meta, text }]. *)
Record Item := { item_meta : Meta; item_text : str }.

(** [o || d] for [o] undefined or a string. *)
Definition orElse (o : option str) (d : str) : str :=
  match o with
  | Some (c :: s) => c :: s
  | _ => d
  end.

(** What throws in the main function. None of it is caught, so each ends
    the run. [OutputUndefined] is the [TypeError] of [outputs[i].data] when
    the extractor returned fewer rows than the batch has texts. *)
Inductive Thrown :=
| StatThrew
| ReadFileThrew
| MatterThrew
| ExtractorThrew
| OutputUndefined.

Inductive Completion (A : Type) :=
| Normal (a : A)
| Abrupt (e : Thrown).
Arguments Normal {A} a.
Arguments Abrupt {A} e.

Section Driver.

(** The type of [Array.from(outputs[i].data)]. *)
Context {vec : Type}.

(** An element of [embeddings]: [{ ...item.meta, vector }]. *)
Record IndexEntry := {
  entry_id : str;
  entry_slug : str;
  entry_title : str;
  entry_description : str;
  entry_mtime : Z;
  entry_vector : vec
}.

Definition entryOf (m : Meta) (v : vec) : IndexEntry :=
  {| entry_id := meta_id m; entry_slug := meta_slug m;
     entry_title := meta_title m; entry_description := meta_description m;
     entry_mtime := meta_mtime m; entry_vector := v |}.

Definition entryMeta (e : IndexEntry) : Meta :=
  {| meta_id := entry_id e; meta_slug := entry_slug e;
     meta_title := entry_title e; meta_description := entry_description e;
     meta_mtime := entry_mtime e |}.

(** What a run meets outside the script. The file [EMBEDDING_FILE] is
    modelled by the sequence of records it serialises ([Some []] for the
    text of the empty array), [None] when it is missing or does not
    parse. *)
Record World := {
  path_relative : str -> str -> str;
  strip : str -> str;
  glob : list str;                           (* the files [glob] lists *)
  stat : str -> option Z;                    (* [+stat.mtime], or throws *)
  readFile : str -> option str;              (* or throws *)
  matter : str -> option (str * FrontMatter); (* [{content, data}], or throws *)
  extractor : list str -> option (list vec); (* one row per text, or throws *)
  EMBEDDING_FILE : option (list IndexEntry)
}.

(** The variables that the main function and [flushBatch] share, and the
    record of the texts of every call of the extractor, in call order. *)
Record Vars := {
  queue : list Item;
  embeddings : list IndexEntry;
  calls : list (list str)
}.

Definition M (A : Type) : Type := Vars -> Completion A * Vars.

Definition ret {A} (a : A) : M A := fun v => (Normal a, v).

Definition bind {A B} (m : M A) (k : A -> M B) : M B :=
  fun v => match m v with
           | (Normal a, v') => k a v'
           | (Abrupt e, v') => (Abrupt e, v')
           end.

Definition throw {A} (e : Thrown) : M A := fun v => (Abrupt e, v).

(** A call that either returns or throws [e]. *)
Definition orThrow {A} (e : Thrown) (o : option A) : M A :=
  match o with
  | Some a => ret a
  | None => throw e
  end.

Definition getQueue : M (list Item) := fun v => (Normal (queue v), v).

(** [queue.push(item)] *)
Definition pushQueue (item : Item) : M unit :=
  fun v => (Normal tt,
            {| queue := queue v ++ [item]; embeddings := embeddings v;
               calls := calls v |}).

(** [queue.splice(0, n)] *)
Definition spliceQueue (n : nat) : M (list Item) :=
  fun v => (Normal (firstn n (queue v)),
            {| queue := skipn n (queue v); embeddings := embeddings v;
               calls := calls v |}).

(** [embeddings.push(e)] *)
Definition pushEmbedding (e : IndexEntry) : M unit :=
  fun v => (Normal tt,
            {| queue := queue v; embeddings := embeddings v ++ [e];
               calls := calls v |}).

Definition logCall (texts : list str) : M unit :=
  fun v => (Normal tt,
            {| queue := queue v; embeddings := embeddings v;
               calls := calls v ++ [texts] |}).

End Driver.

Arguments IndexEntry : clear implicits.
Arguments World : clear implicits.
Arguments Vars : clear implicits.
Arguments M : clear implicits.

Notation "'let*' x := c1 'in' c2" := (bind c1 (fun x => c2))
  (at level 10, x name, c1 at level 100, c2 at level 200).
Notation "c1 ;;; c2" := (bind c1 (fun _ => c2))
  (at level 100, c2 at level 200, right associativity).

(** [for (const x of l) { await f(x) }] and [l.forEach(f)] *)
Fixpoint forEach {vec A} (f : A -> M vec unit) (l : list A) : M vec unit :=
  match l with
  | [] => ret tt
  | x :: l' => f x ;;; forEach f l'
  end.

Section Main.

Context {vec : Type}.
Variable w : World vec.

(** [prev[key] = value] on the object literal [prev]: the key
    ["__proto__"] is the accessor of [Object.prototype], whose setter
    ignores a number, so nothing is stored under it. Reading a key that
    was never stored gives [undefined] or an inherited member, neither of
    which is equal to a number. *)
Definition setProp (key : str) (value : Z) (prev : gmap str Z) : gmap str Z :=
  if str_eqb key (lit "__proto__") then prev else <[key := value]> prev.

(** Lines 89-93: [raw.forEach((e) => { prev[e.id] = e.mtime; })], with
    [prev] left empty when the file is missing or does not parse. *)
Definition loadPrev (file : option (list (IndexEntry vec))) : gmap str Z :=
  match file with
  | Some raw => fold_left (fun prev e => setProp (entry_id e) (entry_mtime e) prev) raw ∅
  | None => ∅
  end.

(** Line 131: [prev[slug] && prev[slug] === mtime]; the number 0 is
    falsy. *)
Definition unchanged (prev : gmap str Z) (slug : str) (mtime : Z) : bool :=
  match prev !! slug with
  | Some m => negb (m =? 0)%Z && (m =? mtime)%Z
  | None => false
  end.

(** The [batch.forEach] of [flushBatch]. *)
Fixpoint pushEntries (batch : list Item) (outputs : list vec) : M vec unit :=
  match batch with
  | [] => ret tt
  | item :: batch' =>
      match outputs with
      | [] => throw OutputUndefined
      | v :: outputs' =>
          pushEmbedding (entryOf (item_meta item) v) ;;;
          pushEntries batch' outputs'
      end
  end.

Definition flushBatch : M vec unit :=
  let* q := getQueue in
  match q with
  | [] => ret tt
  | _ :: _ =>
      let* batch := spliceQueue BATCH_SIZE in
      let texts := map item_text batch in
      logCall texts ;;;
      let* outputs := orThrow ExtractorThrew (extractor w texts) in
      pushEntries batch outputs
  end.

(** [`${title}. ${description}. ${chunk.text}`] *)
Definition promptText (title description text : str) : str :=
  title ++ lit ". " ++ description ++ lit ". " ++ text.

(** The object that [queue.push] receives for a chunk. *)
Definition itemOfChunk (slug title description : str) (mtime : Z)
           (chunk : Chunk) : Item :=
  {| item_meta :=
       {| meta_id := chunk_id chunk; meta_slug := slug; meta_title := title;
          meta_description := description; meta_mtime := mtime |};
     item_text := promptText title description (chunk_text chunk) |}.

(** The body of the loop over [files]; both [continue]s end it early. *)
Definition processFile (prev : gmap str Z) (filePath : str) : M vec unit :=
  let* mtime := orThrow StatThrew (stat w filePath) in
  let* contentRaw := orThrow ReadFileThrew (readFile w filePath) in
  let* parsed := orThrow MatterThrew (matter w contentRaw) in
  let content := fst parsed in
  let fm := snd parsed in
  if fm_draft fm then ret tt
  else
    let slug := deriveSlug (path_relative w) filePath (fm_slug fm) in
    let title := orElse (fm_title fm) slug in
    let description := orElse (fm_description fm) [] in
    if unchanged prev slug mtime then ret tt
    else
      let plain := markdownToPlain (strip w) content in
      let chunks := chunkText plain slug in
      forEach (fun chunk =>
                 pushQueue (itemOfChunk slug title description mtime chunk))
              chunks ;;;
      let* q := getQueue in
      if BATCH_SIZE * MAX_CONCURRENCY <=? length q
      then flushBatch
      else ret tt.

Definition noVars : Vars vec := {| queue := []; embeddings := []; calls := [] |}.

(** The outcome of a run: how the main function completed, the content of
    [EMBEDDING_FILE] afterwards, and the texts sent to the extractor. *)
Record Run := {
  outcome : Completion unit;
  artifact : option (list (IndexEntry vec));
  extractorCalls : list (list str)
}.

(** The main function from the [glob] call on: the output directories
    exist and the extractor is loaded. The progress bar and the closing
    [cos_sim], which reach no variable of the build, are left out, and
    [fs.writeFile] is taken to succeed. *)
Definition main : Run :=
  match glob w with
  | [] =>
      {| outcome := Normal tt; artifact := Some []; extractorCalls := [] |}
  | _ :: _ =>
      let prev := loadPrev (EMBEDDING_FILE w) in
      match (forEach (processFile prev) (glob w) ;;; flushBatch) noVars with
      | (Normal _, v) =>
          {| outcome := Normal tt; artifact := Some (embeddings v);
             extractorCalls := calls v |}
      | (Abrupt e, v) =>
          {| outcome := Abrupt e; artifact := EMBEDDING_FILE w;
             extractorCalls := calls v |}
      end
  end.

End Main.

Arguments Run : clear implicits.

(** ** Vocabulary of the properties *)

(** *** Splitting on blank lines

    [SplitsInto text pieces]: [text] is the pieces in order with a run of
    two or more line feeds between neighbours; no piece contains two
    adjacent line feeds, and the runs are maximal (no piece ends with a
    line feed before a run or starts with one after it). *)
Definition blankRun (sep : str) : Prop :=
  2 <= length sep /\ Forall (fun c => isNl c = true) sep.

Definition noBlankLine (p : str) : Prop :=
  forall a b, p <> a ++ [nl; nl] ++ b.

Definition startsWithNl (s : str) : Prop := exists s', s = nl :: s'.
Definition endsWithNl (s : str) : Prop := exists s', s = s' ++ [nl].

Inductive SplitsInto : str -> list str -> Prop :=
| SplitsInto_last p :
    noBlankLine p -> SplitsInto p [p]
| SplitsInto_more p sep rest ps :
    noBlankLine p -> ~ endsWithNl p ->
    blankRun sep -> ~ startsWithNl rest ->
    SplitsInto rest ps ->
    SplitsInto (p ++ sep ++ rest) (p :: ps).

(** *** The path branch of the slug, in the words of the specification *)

Definition hasMdExt (p : str) : Prop :=
  exists q, p = q ++ lit ".md" \/ p = q ++ lit ".mdx".

(** [q] is [p] without its [.md] or [.mdx] extension. *)
Definition ExtensionRemoved (p q : str) : Prop :=
  (p = q ++ lit ".md" \/ p = q ++ lit ".mdx") \/ (q = p /\ ~ hasMdExt p).

(** [r] is [q] without a trailing [/index] segment. *)
Definition IndexRemoved (q r : str) : Prop :=
  q = r ++ lit "/index" \/ (r = q /\ forall q', q <> q' ++ lit "/index").

(** *** What a run pushes and pairs *)

Section Pushed.

Context {vec : Type}.
Variable w : World vec.

(** The items that the loop body pushes for one file, in fragment order:
    none for a draft or for a file that the unchanged test skips. *)
Definition docItems (prev : gmap str Z) (filePath : str) : list Item :=
  match stat w filePath, readFile w filePath with
  | Some mtime, Some contentRaw =>
      match matter w contentRaw with
      | Some (content, fm) =>
          if fm_draft fm then []
          else
            let slug := deriveSlug (path_relative w) filePath (fm_slug fm) in
            if unchanged prev slug mtime then []
            else
              map (itemOfChunk slug (orElse (fm_title fm) slug)
                               (orElse (fm_description fm) []) mtime)
                  (chunkText (markdownToPlain (strip w) content) slug)
      | None => []
      end
  | _, _ => []
  end.

(** Every item of a run, in document-enumeration order and, within a
    document, in fragment order. *)
Definition pushedItems : list Item :=
  flat_map (docItems (loadPrev (EMBEDDING_FILE w))) (glob w).

(** The i-th row of the output with the i-th item of the batch. *)
Definition pairBatch (batch : list Item) (outputs : list vec)
  : list (IndexEntry vec) :=
  map (fun p => entryOf (item_meta (fst p)) (snd p)) (combine batch outputs).

Definition embedBatch (batch : list Item) : list (IndexEntry vec) :=
  match extractor w (map item_text batch) with
  | Some outputs => pairBatch batch outputs
  | None => []
  end.

(** The extractor answered a batch with a row for each of its items. *)
Definition answered (batch : list Item) : Prop :=
  exists outputs,
    extractor w (map item_text batch) = Some outputs /\
    length batch <= length outputs.

(** The state of the variables once the items [pushed] have been pushed:
    some batches, which make up a prefix of [pushed], went to the
    extractor one call each and were answered, [embeddings] holds their
    pairings in order, and the rest of [pushed] is still in the queue. *)
Definition Flushed (pushed : list Item) (v : Vars vec) : Prop :=
  exists batches,
    pushed = concat batches ++ queue v /\
    calls v = map (map item_text) batches /\
    embeddings v = flat_map embedBatch batches /\
    Forall answered batches.

Definition CallsAnswered (cs : list (list str)) : Prop :=
  Forall (fun texts => extractor w texts <> None) cs.

(** The file can be stat'ed and read, and its front matter parses. *)
Definition Loaded (filePath : str) : Prop :=
  exists mtime contentRaw parsed,
    stat w filePath = Some mtime /\
    readFile w filePath = Some contentRaw /\
    matter w contentRaw = Some parsed.

(** The front matter and the slug of a file of the corpus. *)
Definition frontMatterOf (filePath : str) : option FrontMatter :=
  match readFile w filePath with
  | Some contentRaw =>
      match matter w contentRaw with
      | Some parsed => Some (snd parsed)
      | None => None
      end
  | None => None
  end.

Definition slugOf (filePath : str) : option str :=
  match frontMatterOf filePath with
  | Some fm => Some (deriveSlug (path_relative w) filePath (fm_slug fm))
  | None => None
  end.

End Pushed.

(** ** Stand-ins and corpora of the examples *)

(** A path relative to the content directory is what follows the directory
    and its separator; plain prose has no markup to strip. *)
Fixpoint dropPrefix (p s : str) : option str :=
  match p, s with
  | [], _ => Some s
  | a :: p', b :: s' => if Ascii.eqb a b then dropPrefix p' s' else None
  | _ :: _, [] => None
  end.

Definition relativeUnder (from to : str) : str :=
  match dropPrefix (from ++ lit "/") to with
  | Some r => r
  | None => to
  end.

Definition noMarkup (md : str) : str := md.

(** An extractor that answers each text with a one-number row, and one
    that always throws. *)
Definition lengthExtractor (texts : list str) : option (list (list Z)) :=
  Some (map (fun t => [Z.of_nat (length t)]) texts).

Definition brokenExtractor (texts : list str) : option (list (list Z)) := None.

(** A file of a corpus: its path, its modification time, its raw content
    and what gray-matter makes of it ([None]: it throws). *)
Record Post := {
  post_path : str;
  post_mtime : Z;
  post_raw : str;
  post_parsed : option (str * FrontMatter)
}.

Definition findPost (key : Post -> str) (k : str) (posts : list Post) : option Post :=
  find (fun p => str_eqb (key p) k) posts.

Definition corpus (posts : list Post)
           (ex : list str -> option (list (list Z)))
           (file : option (list (IndexEntry (list Z)))) : World (list Z) :=
  {| path_relative := relativeUnder;
     strip := noMarkup;
     glob := map post_path posts;
     stat := fun p => option_map post_mtime (findPost post_path p posts);
     readFile := fun p => option_map post_raw (findPost post_path p posts);
     matter := fun raw =>
       match findPost post_raw raw posts with
       | Some p => post_parsed p
       | None => None
       end;
     extractor := ex;
     EMBEDDING_FILE := file |}.

Definition plainFm (title : str) : FrontMatter :=
  {| fm_slug := None; fm_title := Some title; fm_description := None;
     fm_draft := false |}.

(** A paragraph of 50 code units, one of 40 and one of 41. *)
Definition para50 : str := lit "The quick brown fox jumps over the lazy dog again.".
Definition para40 : str := lit "0123456789012345678901234567890123456789".
Definition para41 : str := lit "0123456789012345678901234567890123456789x".

Definition postA : Post :=
  {| post_path := lit "src/data/blog/a.md"; post_mtime := 100;
     post_raw := lit "raw of a";
     post_parsed := Some (para50, plainFm (lit "A")) |}.

Definition postB : Post :=
  {| post_path := lit "src/data/blog/b.md"; post_mtime := 200;
     post_raw := lit "raw of b";
     post_parsed := Some (para50, plainFm (lit "B")) |}.

(** A file whose front matter does not parse. *)
Definition postBad : Post :=
  {| post_path := lit "src/data/blog/bad.md"; post_mtime := 300;
     post_raw := lit "raw of bad";
     post_parsed := None |}.

Definition postDraft : Post :=
  {| post_path := lit "src/data/blog/wip.md"; post_mtime := 400;
     post_raw := lit "raw of wip";
     post_parsed :=
       Some (para50,
             {| fm_slug := None; fm_title := Some (lit "Wip");
                fm_description := None; fm_draft := true |}) |}.

(** The records that an earlier build left for [a.md] (slug [a], mtime
    100). *)
Definition oldEntry (id : str) : IndexEntry (list Z) :=
  {| entry_id := id; entry_slug := lit "a"; entry_title := lit "A";
     entry_description := []; entry_mtime := 100; entry_vector := [7%Z] |}.

Definition e1 : IndexEntry (list Z) := oldEntry (lit "a#para-0").
Definition e2 : IndexEntry (list Z) := oldEntry (lit "a#para-1").

(** The carry-forward scenario: [a.md] unchanged since the build that left
    [e1] and [e2], [b.md] new. *)
Definition carryWorld : World (list Z) :=
  corpus [postA; postB] lengthExtractor (Some [e1; e2]).

(** The same corpus over an artifact in which a record's id is the bare
    slug of [a.md], the only way for line 131 to find the slug in [prev]. *)
Definition skipWorld : World (list Z) :=
  corpus [postA; postB] lengthExtractor (Some [oldEntry (lit "a")]).

(** Seventeen one-paragraph posts, none indexed before. *)
Definition numberedPost (i : nat) : Post :=
  {| post_path := lit "src/data/blog/post-" ++ decimal i ++ lit ".md";
     post_mtime := 1000 + Z.of_nat i;
     post_raw := lit "raw of post " ++ decimal i;
     post_parsed := Some (para50, plainFm (lit "Post " ++ decimal i)) |}.

Definition seventeenWorld : World (list Z) :=
  corpus (map numberedPost (seq 1 17)) lengthExtractor None.

Definition brokenWorld : World (list Z) :=
  corpus [postA; postB] brokenExtractor (Some [e1; e2]).

Definition badWorld : World (list Z) :=
  corpus [postBad; postB] lengthExtractor (Some [e1]).

Definition draftWorld : World (list Z) :=
  corpus [postDraft; postB] lengthExtractor
         (Some [{| entry_id := lit "wip#para-0"; entry_slug := lit "wip";
                   entry_title := lit "Wip"; entry_description := [];
                   entry_mtime := 400; entry_vector := [9%Z] |}]).

Definition emptyWorld : World (list Z) :=
  corpus [] lengthExtractor (Some [e1; e2]).

(** ** The copy of the model files

    [copyDir] (lines 23-34) and its call (lines 71-78), over a file system
    of plain files and directories. A directory is the list of its entries
    in [readdir] order; the source and the destination are separate
    trees. *)

Inductive Node :=
| File (data : str)
| Dir (entries : list (str * Node)).

Inductive FsError :=
| MkdirThrew      (* the destination exists and is not a directory *)
| ReaddirThrew    (* the source is missing or is not a directory *)
| CopyFileThrew.  (* the destination of a file is a directory *)

Inductive FsResult :=
| Copied
| Failed (e : FsError).

(** The node at [path.join(dir, name)]. *)
Definition lookupEntry (name : str) (d : list (str * Node)) : option Node :=
  option_map snd (find (fun e => str_eqb (fst e) name) d).

(** Creating or replacing the node at [path.join(dir, name)]. *)
Fixpoint setEntry (name : str) (n : Node) (d : list (str * Node))
  : list (str * Node) :=
  match d with
  | [] => [(name, n)]
  | (k, x) :: d' =>
      if str_eqb k name then (k, n) :: d' else (k, x) :: setEntry name n d'
  end.

(** [fs.mkdir(dest, { recursive: true })]: the entries of the directory
    that [dest] is afterwards, or [None] when it throws. *)
Definition mkdirRecursive (dest : option Node) : option (list (str * Node)) :=
  match dest with
  | None => Some []
  | Some (Dir d) => Some d
  | Some (File _) => None
  end.

(** The body of the loop of [copyDir] for one entry, [src] being the node
    at [srcPath] and [dest] what is at [destPath]: [copyDir(srcPath,
    destPath)] for a directory, [fs.copyFile(srcPath, destPath)] otherwise.
    The result is the completion and what is at [destPath] afterwards. *)
Fixpoint copyTree (src : Node) (dest : option Node) : FsResult * option Node :=
  match src with
  | File data =>
      match dest with
      | Some (Dir _) => (Failed CopyFileThrew, dest)
      | _ => (Copied, Some (File data))
      end
  | Dir entries =>
      match mkdirRecursive dest with
      | None => (Failed MkdirThrew, dest)
      | Some start =>
          let fix loop (es : list (str * Node)) (d : list (str * Node))
            : FsResult * list (str * Node) :=
            match es with
            | [] => (Copied, d)
            | (name, child) :: es' =>
                match copyTree child (lookupEntry name d) with
                | (Copied, Some child') => loop es' (setEntry name child' d)
                | (Copied, None) => loop es' d
                | (Failed e, Some child') => (Failed e, setEntry name child' d)
                | (Failed e, None) => (Failed e, d)
                end
            end in
          let (r, d') := loop entries start in
          (r, Some (Dir d'))
      end
  end.

(** The loop of [copyDir] over the entries of the source, from the
    entries [d] of the destination: the local [loop] of [copyTree]. *)
Fixpoint copyEntries (es : list (str * Node)) (d : list (str * Node))
  : FsResult * list (str * Node) :=
  match es with
  | [] => (Copied, d)
  | (name, child) :: es' =>
      match copyTree child (lookupEntry name d) with
      | (Copied, Some child') => copyEntries es' (setEntry name child' d)
      | (Copied, None) => copyEntries es' d
      | (Failed e, Some child') => (Failed e, setEntry name child' d)
      | (Failed e, None) => (Failed e, d)
      end
  end.

(** [copyDir(src, dest)]: [mkdir] comes first, so a source that is missing
    or is a file leaves the destination created. *)
Definition copyDir (src dest : option Node) : FsResult * option Node :=
  match src with
  | Some (Dir entries) => copyTree (Dir entries) dest
  | _ =>
      match mkdirRecursive dest with
      | None => (Failed MkdirThrew, dest)
      | Some d => (Failed ReaddirThrew, Some (Dir d))
      end
  end.

(** Lines 71-78: [fs.access(publicPath).catch(() => copyDir(cachePath,
    publicPath))] inside [try { } catch (e) { }]. The result is what is at
    [publicPath] afterwards; whatever [copyDir] throws is swallowed. *)
Definition copyModel (cache public : option Node) : option Node :=
  match public with
  | Some _ => public
  | None => snd (copyDir cache None)
  end.

(** The node and the file at a relative path. *)
Fixpoint nodeAt (n : Node) (p : list str) : option Node :=
  match p with
  | [] => Some n
  | name :: p' =>
      match n with
      | Dir d =>
          match lookupEntry name d with
          | Some c => nodeAt c p'
          | None => None
          end
      | File _ => None
      end
  end.

(** No directory lists a name twice. *)
Fixpoint wellFormed (n : Node) : Prop :=
  match n with
  | File _ => True
  | Dir es =>
      List.NoDup (map fst es) /\
      (fix all (es : list (str * Node)) : Prop :=
         match es with
         | [] => True
         | (_, c) :: es' => wellFormed c /\ all es'
         end) es
  end.

Definition modelCache : Node :=
  Dir [(lit "config.json", File (lit "{}"));
       (lit "onnx", Dir [(lit "model_quantized.onnx", File (lit "weights"))])].

(** ** More vocabulary of the properties *)

(** No two neighbours of the text are both white space. *)
Fixpoint singleSpaced (s : str) : Prop :=
  match s with
  | c :: t =>
      match t with
      | d :: _ => ~ (isSpace c = true /\ isSpace d = true)
      | [] => True
      end /\ singleSpaced t
  | [] => True
  end.

(** The batches that went to the extractor once the items [pushed] have
    been pushed, whether or not they were answered: they make up a prefix
    of [pushed], each has from 1 to [BATCH_SIZE] items, and the rest of
    [pushed] is in the queue. *)
Definition Sent {vec} (pushed : list Item) (v : Vars vec) : Prop :=
  exists batches,
    pushed = concat batches ++ queue v /\
    calls v = map (map item_text) batches /\
    Forall (fun batch => 1 <= length batch <= BATCH_SIZE) batches.

(** How many records and queued items there are once [n] items have been
    pushed, at most one per turn of the loop. *)
Definition Counted {vec} (n : nat) (v : Vars vec) : Prop :=
  length (embeddings v) + length (queue v) = n /\
  length (queue v) < BATCH_SIZE * MAX_CONCURRENCY /\
  (n < BATCH_SIZE * MAX_CONCURRENCY -> length (embeddings v) = 0) /\
  (BATCH_SIZE * MAX_CONCURRENCY <= n ->
   length (queue v) = BATCH_SIZE + n mod BATCH_SIZE).

(** The number of records that a completed run writes for [n] pushed
    items. *)
Definition writtenCount (n : nat) : nat :=
  if n <? BATCH_SIZE * MAX_CONCURRENCY
  then Nat.min n BATCH_SIZE
  else n - n mod BATCH_SIZE.

(** A corpus in which a file cannot be read. *)
Definition unreadableWorld : World (list Z) :=
  {| path_relative := relativeUnder;
     strip := noMarkup;
     glob := [post_path postB; lit "src/data/blog/gone.md"];
     stat := fun p => if str_eqb p (post_path postB) then Some 200%Z else None;
     readFile := fun p =>
       if str_eqb p (post_path postB) then Some (post_raw postB) else None;
     matter := fun raw => Some (para50, plainFm (lit "B"));
     extractor := lengthExtractor;
     EMBEDDING_FILE := Some [e1] |}.

(** The world of the next run: the same but for the content of
    [EMBEDDING_FILE]. *)
Definition setArtifact {vec} (w : World vec) (file : option (list (IndexEntry vec)))
  : World vec :=
  {| path_relative := path_relative w; strip := strip w; glob := glob w;
     stat := stat w; readFile := readFile w; matter := matter w;
     extractor := extractor w; EMBEDDING_FILE := file |}.

(** Forty posts, none indexed before. *)
Definition fortyWorld : World (list Z) :=
  corpus (map numberedPost (seq 1 40)) lengthExtractor None.

(** * Properties *)

(** ** White space and trimming *)

Lemma isNl_true (c : ascii) : isNl c = true <-> c = nl.
Proof. unfold isNl. apply Ascii.eqb_eq. Qed.

Lemma isNl_nl : isNl nl = true.
Proof. reflexivity. Qed.

Lemma isSpace_nl (c : ascii) : isNl c = true -> isSpace c = true.
Proof. intros H. apply isNl_true in H. subst c. reflexivity. Qed.

Lemma trimStart_split (s : str) :
  exists ws, s = ws ++ trimStart s /\ Forall (fun c => isSpace c = true) ws.
Proof.
  induction s as [|c s [ws [Hs Hws]]]; simpl.
  - exists []. split; [reflexivity | constructor].
  - destruct (isSpace c) eqn:Hc.
    + exists (c :: ws). split; [simpl; congruence | constructor; assumption].
    + exists []. split; [reflexivity | constructor].
Qed.

Lemma trimStart_head (s : str) (c : ascii) (t : str) :
  trimStart s = c :: t -> isSpace c = false.
Proof.
  induction s as [|d s IH]; simpl; [discriminate|].
  destruct (isSpace d) eqn:Hd; [exact IH|].
  intros H. injection H as -> _. exact Hd.
Qed.

Lemma trimStart_fixed (s : str) :
  (forall c t, s = c :: t -> isSpace c = false) -> trimStart s = s.
Proof.
  destruct s as [|c t]; [reflexivity|].
  intros H. simpl. rewrite (H c t eq_refl). reflexivity.
Qed.

Lemma trimStart_idem (s : str) : trimStart (trimStart s) = trimStart s.
Proof.
  apply trimStart_fixed. intros c t H. exact (trimStart_head _ _ _ H).
Qed.

Lemma trimEnd_split (s : str) :
  exists ws, s = trimEnd s ++ ws /\ Forall (fun c => isSpace c = true) ws.
Proof.
  destruct (trimStart_split (rev s)) as [ws [Hs Hws]].
  exists (rev ws). split.
  - unfold trimEnd. rewrite <- rev_app_distr, <- Hs, rev_involutive. reflexivity.
  - apply List.Forall_forall. intros c Hc. apply in_rev in Hc.
    rewrite List.Forall_forall in Hws. exact (Hws c Hc).
Qed.

Lemma trimEnd_idem (s : str) : trimEnd (trimEnd s) = trimEnd s.
Proof.
  unfold trimEnd. rewrite rev_involutive, trimStart_idem. reflexivity.
Qed.

(** Trimming the end keeps a first code unit that is not white space. *)
Lemma trimEnd_head (s : str) (c : ascii) (t : str) :
  (forall d u, s = d :: u -> isSpace d = false) ->
  trimEnd s = c :: t -> isSpace c = false.
Proof.
  intros Hs Ht. destruct (trimEnd_split s) as [ws [Hsplit _]].
  rewrite Ht in Hsplit. simpl in Hsplit. exact (Hs c _ Hsplit).
Qed.

Lemma trim_idem (s : str) : trim (trim s) = trim s.
Proof.
  unfold trim.
  rewrite (trimStart_fixed (trimEnd (trimStart s))).
  - apply trimEnd_idem.
  - intros c t H. apply (trimEnd_head (trimStart s) c t); [|exact H].
    intros d u Hd. exact (trimStart_head _ _ _ Hd).
Qed.

Lemma trimStart_In (s : str) (c : ascii) : In c (trimStart s) -> In c s.
Proof.
  destruct (trimStart_split s) as [ws [Hs _]]. intros H.
  rewrite Hs. apply in_or_app. right. exact H.
Qed.

Lemma trim_In (s : str) (c : ascii) : In c (trim s) -> In c s.
Proof.
  unfold trim. intros H. apply trimStart_In.
  destruct (trimEnd_split (trimStart s)) as [ws [Hs _]].
  rewrite Hs. apply in_or_app. left. exact H.
Qed.

(** After [replace(/\s+/g, " ")] the only white space left is the space. *)
Lemma replaceSpaceRuns_space (b : bool) (s : str) (c : ascii) :
  In c (replaceSpaceRuns b s) -> isSpace c = true -> c = " "%char.
Proof.
  revert b. induction s as [|d s IH]; intros b; simpl; [contradiction|].
  destruct (isSpace d) eqn:Hd.
  - destruct b; simpl.
    + apply IH.
    + intros [<- | H] Hc; [reflexivity | exact (IH true H Hc)].
  - simpl. intros [<- | H] Hc; [congruence | exact (IH false H Hc)].
Qed.

Lemma replaceSpaceRuns_no_nl (b : bool) (s : str) (c : ascii) :
  In c (replaceSpaceRuns b s) -> isNl c = false.
Proof.
  intros H. destruct (isNl c) eqn:Hc; [|reflexivity].
  pose proof (replaceSpaceRuns_space b s c H (isSpace_nl c Hc)) as ->.
  discriminate Hc.
Qed.

(** ** Splitting *)

Lemma splitBlank_no_nl (s : str) :
  (forall c, In c s -> isNl c = false) -> splitBlank false s = [s].
Proof.
  induction s as [|c s IH]; intros H; [reflexivity|].
  simpl. rewrite (H c (or_introl eq_refl)).
  rewrite IH; [reflexivity|]. intros d Hd. apply H. right. exact Hd.
Qed.

Lemma noBlankLine_nil : noBlankLine [].
Proof. intros [|a l] b H; discriminate H. Qed.

Lemma noBlankLine_cons (c : ascii) (p : str) :
  isNl c = false -> noBlankLine p -> noBlankLine (c :: p).
Proof.
  intros Hc Hp [|a l] b H; simpl in H.
  - injection H as -> _. discriminate Hc.
  - injection H as _ H. exact (Hp l b H).
Qed.

Lemma noBlankLine_nl_cons (p : str) :
  ~ startsWithNl p -> noBlankLine p -> noBlankLine (nl :: p).
Proof.
  intros Hs Hp [|a l] b H; simpl in H.
  - injection H as H. apply Hs. exists b. exact H.
  - injection H as _ H. exact (Hp l b H).
Qed.

Lemma endsWithNl_cons (c : ascii) (p : str) :
  isNl c = false -> ~ endsWithNl p -> ~ endsWithNl (c :: p).
Proof.
  intros Hc Hp [s' H]. destruct s' as [|d s']; simpl in H.
  - injection H as -> _. discriminate Hc.
  - injection H as _ H. apply Hp. exists s'. exact H.
Qed.

Lemma endsWithNl_cons_cons (c d : ascii) (p : str) :
  ~ endsWithNl (d :: p) -> ~ endsWithNl (c :: d :: p).
Proof.
  intros Hp [s' H]. destruct s' as [|a s']; simpl in H.
  - discriminate H.
  - injection H as _ H. apply Hp. exists s'. exact H.
Qed.

Lemma blankRun_starts (sep rest : str) :
  blankRun sep -> startsWithNl (sep ++ rest).
Proof.
  intros [Hlen Hall]. destruct sep as [|c sep]; [simpl in Hlen; lia|].
  inversion Hall as [|? ? Hc _]; subst. apply isNl_true in Hc. subst c.
  exists (sep ++ rest). reflexivity.
Qed.

(** Putting a code unit that is not a line feed in front of a text puts it
    in front of the first piece. *)
Lemma SplitsInto_cons (c : ascii) (s : str) (ps : list str) :
  isNl c = false -> SplitsInto s ps -> SplitsInto (c :: s) (consHead c ps).
Proof.
  intros Hc H. inversion H as [p Hp | p sep rest ps' Hp He Hsep Hr Hrest]; subst; simpl.
  - apply SplitsInto_last. apply noBlankLine_cons; assumption.
  - change (c :: p ++ sep ++ rest) with ((c :: p) ++ sep ++ rest).
    apply SplitsInto_more; try assumption.
    + apply noBlankLine_cons; assumption.
    + apply endsWithNl_cons; assumption.
Qed.

(** The same for a single line feed, which no line feed follows. *)
Lemma SplitsInto_nl_cons (s : str) (ps : list str) :
  ~ startsWithNl s -> SplitsInto s ps -> SplitsInto (nl :: s) (consHead nl ps).
Proof.
  intros Hs H. inversion H as [p Hp | p sep rest ps' Hp He Hsep Hr Hrest]; subst; simpl.
  - apply SplitsInto_last. apply noBlankLine_nl_cons; assumption.
  - destruct p as [|d p].
    + exfalso. apply Hs. simpl. apply blankRun_starts. exact Hsep.
    + change (nl :: (d :: p) ++ sep ++ rest) with ((nl :: d :: p) ++ sep ++ rest).
      apply SplitsInto_more; try assumption.
      * apply noBlankLine_nl_cons; [|assumption].
        intros [s' Hd]. apply Hs. exists (p ++ sep ++ rest).
        simpl. injection Hd as -> _. reflexivity.
      * apply endsWithNl_cons_cons. exact He.
Qed.

Lemma splitBlank_true_not_nl (c : ascii) (s : str) :
  isNl c = false -> splitBlank true (c :: s) = splitBlank false (c :: s).
Proof. intros Hc. simpl. rewrite Hc. reflexivity. Qed.

Lemma splitBlank_sound (s : str) :
  SplitsInto s (splitBlank false s) /\
  (forall sep, sep <> [] -> Forall (fun c => isNl c = true) sep ->
               2 <= length sep \/ startsWithNl s ->
               SplitsInto (sep ++ s) ([] :: splitBlank true s)).
Proof.
  induction s as [|c s [IHsplit IHsep]].
  - split.
    + apply SplitsInto_last, noBlankLine_nil.
    + intros sep Hne Hall [Hlen | [s' Hs]]; [|discriminate Hs].
      change (sep ++ []) with ([] ++ sep ++ []). simpl splitBlank.
      apply SplitsInto_more.
      * apply noBlankLine_nil.
      * intros [s' Hs]. destruct s'; discriminate Hs.
      * split; assumption.
      * intros [s' Hs]. discriminate Hs.
      * apply SplitsInto_last, noBlankLine_nil.
  - assert (Hfalse : SplitsInto (c :: s) (splitBlank false (c :: s))).
    { simpl. destruct (isNl c) eqn:Hc.
      - apply isNl_true in Hc. subst c. destruct s as [|d s].
        + simpl. apply SplitsInto_last.
          apply noBlankLine_nl_cons; [|apply noBlankLine_nil].
          intros [s' Hs]. discriminate Hs.
        + destruct (isNl d) eqn:Hd.
          * apply (IHsep [nl]); [discriminate | repeat constructor |].
            right. apply isNl_true in Hd. subst d. exists s. reflexivity.
          * apply SplitsInto_nl_cons; [|exact IHsplit].
            intros [s' Hs]. injection Hs as -> _. discriminate Hd.
      - apply SplitsInto_cons; assumption. }
    split; [exact Hfalse|].
    intros sep Hne Hall Hrun. destruct (isNl c) eqn:Hc.
    + simpl splitBlank. rewrite Hc.
      replace (sep ++ c :: s) with ((sep ++ [c]) ++ s)
        by (rewrite <- app_assoc; reflexivity).
      apply IHsep.
      * destruct sep; discriminate.
      * apply List.Forall_app. split; [assumption | repeat constructor; assumption].
      * left. rewrite length_app. simpl. destruct sep; [congruence | simpl; lia].
    + rewrite (splitBlank_true_not_nl c s Hc).
      assert (Hns : ~ startsWithNl (c :: s)).
      { intros [s' Hs]. injection Hs as -> _. discriminate Hc. }
      change (sep ++ c :: s) with ([] ++ sep ++ c :: s).
      apply SplitsInto_more.
      * apply noBlankLine_nil.
      * intros [s' Hs]. destruct s'; discriminate Hs.
      * split; [|assumption]. destruct Hrun as [Hlen | Hs]; [assumption | contradiction].
      * exact Hns.
      * exact Hfalse.
Qed.

Lemma blankRun_two (sep : str) : blankRun sep -> exists t, sep = nl :: nl :: t.
Proof.
  intros [Hlen Hall]. destruct sep as [|a [|b t]]; simpl in Hlen; try lia.
  inversion Hall as [|? ? Ha Hall']; subst.
  inversion Hall' as [|? ? Hb _]; subst.
  apply isNl_true in Ha, Hb. subst. exists t. reflexivity.
Qed.

Lemma blankRun_not_noBlankLine (p sep rest : str) :
  blankRun sep -> ~ noBlankLine (p ++ sep ++ rest).
Proof.
  intros Hsep H. destruct (blankRun_two sep Hsep) as [t ->].
  apply (H p (t ++ rest)). reflexivity.
Qed.

Lemma endsWithNl_tail (c : ascii) (p : str) :
  endsWithNl p -> endsWithNl (c :: p).
Proof. intros [s' ->]. exists (c :: s'). reflexivity. Qed.

Lemma noBlankLine_tail (c : ascii) (p : str) :
  noBlankLine (c :: p) -> noBlankLine p.
Proof. intros H a b Hp. apply (H (c :: a) b). rewrite Hp. reflexivity. Qed.

(** A piece that a blank run follows cannot reach into the run. *)
Lemma piece_before_run (p sep rest tail : str) :
  blankRun sep -> noBlankLine p -> ~ endsWithNl p ->
  p ++ tail = sep ++ rest -> p = [].
Proof.
  intros Hsep Hp He H. destruct (blankRun_two sep Hsep) as [t ->].
  destruct p as [|a [|b p]]; [reflexivity | |]; simpl in H.
  - injection H as -> _. exfalso. apply He. exists []. reflexivity.
  - injection H as -> -> _. exfalso. apply (Hp [] p). reflexivity.
Qed.

Lemma first_piece_unique (p p' sep sep' rest rest' : str) :
  noBlankLine p -> ~ endsWithNl p -> blankRun sep ->
  noBlankLine p' -> ~ endsWithNl p' -> blankRun sep' ->
  p ++ sep ++ rest = p' ++ sep' ++ rest' ->
  p = p' /\ sep ++ rest = sep' ++ rest'.
Proof.
  revert p'. induction p as [|c p IH]; intros p' Hp He Hsep Hp' He' Hsep' H.
  - simpl in H. symmetry in H.
    pose proof (piece_before_run p' sep rest _ Hsep Hp' He' H) as Hnil.
    subst p'. split; [reflexivity | symmetry; exact H].
  - destruct p' as [|d p'].
    + simpl in H.
      discriminate (piece_before_run (c :: p) sep' rest' _ Hsep' Hp He H).
    + simpl in H. injection H as -> H.
      destruct (IH p') as [-> Hrest]; try assumption.
      * exact (noBlankLine_tail _ _ Hp).
      * intros Hn. apply He. apply endsWithNl_tail. exact Hn.
      * exact (noBlankLine_tail _ _ Hp').
      * intros Hn. apply He'. apply endsWithNl_tail. exact Hn.
      * split; [reflexivity | exact Hrest].
Qed.

Lemma run_unique (sep sep' rest rest' : str) :
  Forall (fun c => isNl c = true) sep -> Forall (fun c => isNl c = true) sep' ->
  ~ startsWithNl rest -> ~ startsWithNl rest' ->
  sep ++ rest = sep' ++ rest' -> sep = sep' /\ rest = rest'.
Proof.
  revert sep'. induction sep as [|c sep IH]; intros sep' Hs Hs' Hr Hr' H.
  - destruct sep' as [|d sep']; [split; [reflexivity | exact H]|].
    exfalso. apply Hr. inversion Hs' as [|? ? Hd _]; subst.
    apply isNl_true in Hd. subst d. exists (sep' ++ rest'). exact H.
  - destruct sep' as [|d sep'].
    + exfalso. apply Hr'. inversion Hs as [|? ? Hc _]; subst.
      apply isNl_true in Hc. subst c. exists (sep ++ rest). symmetry. exact H.
    + simpl in H. injection H as -> H.
      inversion Hs; inversion Hs'; subst.
      destruct (IH sep') as [-> ->]; try assumption. split; reflexivity.
Qed.

(** [SplitsInto] determines the pieces. *)
Lemma SplitsInto_unique (s : str) (ps ps' : list str) :
  SplitsInto s ps -> SplitsInto s ps' -> ps = ps'.
Proof.
  intros H. revert ps'.
  induction H as [p Hp | p sep rest ps Hp He Hsep Hr Hrest IH]; intros ps' H'.
  - inversion H' as [q Hq | q sep' rest' qs Hq Hqe Hsep' Hr' Hrest']; subst.
    + reflexivity.
    + exfalso. exact (blankRun_not_noBlankLine _ _ _ Hsep' Hp).
  - inversion H' as [q Hq | q sep' rest' qs Hq Hqe Hsep' Hr' Hrest' Heq]; subst.
    + exfalso. exact (blankRun_not_noBlankLine _ _ _ Hsep Hq).
    + symmetry in Heq.
      destruct (first_piece_unique _ _ _ _ _ _ Hp He Hsep Hq Hqe Hsep' Heq)
        as [-> Htail].
      destruct (run_unique sep sep' rest rest') as [_ ->]; try assumption.
      * apply Hsep.
      * apply Hsep'.
      * f_equal. apply IH. exact Hrest'.
Qed.

(** ** Chunks *)

Lemma mapi_from_text (slug : str) (k : nat) (l : list str) :
  map chunk_text
      (mapi_from (fun p i => {| chunk_id := paraId slug i; chunk_text := p |}) k l)
  = l.
Proof.
  revert k. induction l as [|p l IH]; intros k; simpl; [reflexivity|].
  rewrite IH. reflexivity.
Qed.

Lemma mapi_from_nth {A B} (f : A -> nat -> B) (k : nat) (l : list A) (i : nat) (y : B) :
  nth_error (mapi_from f k l) i = Some y ->
  exists x, nth_error l i = Some x /\ y = f x (k + i).
Proof.
  revert k i. induction l as [|x l IH]; intros k i; simpl.
  - destruct i; discriminate.
  - destruct i as [|i]; simpl.
    + intros H. injection H as <-. exists x. rewrite Nat.add_0_r. split; reflexivity.
    + intros H. destruct (IH (S k) i H) as [x' [Hx ->]].
      exists x'. split; [exact Hx|]. f_equal. lia.
Qed.

Lemma filter_none {A} (f : A -> bool) (l : list A) :
  (forall x, In x l -> f x = false) -> List.filter f l = [].
Proof.
  induction l as [|x l IH]; intros H; simpl; [reflexivity|].
  rewrite (H x (or_introl eq_refl)). apply IH. intros y Hy. apply H. right. exact Hy.
Qed.

(** ** Regular expressions anchored at the end *)

Lemma replaceAtEnd_spec (whole : str -> bool) (s : str) :
  (exists r, s = replaceAtEnd whole s ++ r /\ whole r = true) \/
  (replaceAtEnd whole s = s /\ forall q r, s = q ++ r -> whole r = false).
Proof.
  induction s as [|c s IH].
  - simpl. destruct (whole []) eqn:Hw.
    + left. exists []. split; [reflexivity | exact Hw].
    + right. split; [reflexivity|]. intros q r H.
      symmetry in H. apply app_eq_nil in H. destruct H as [_ ->]. exact Hw.
  - simpl. destruct (whole (c :: s)) eqn:Hw.
    + left. exists (c :: s). split; [reflexivity | exact Hw].
    + destruct IH as [[r [Hs Hr]] | [Hs Hnone]].
      * left. exists r. split; [simpl; congruence | exact Hr].
      * right. split; [congruence|]. intros [|d q] r H; simpl in H.
        -- subst r. exact Hw.
        -- injection H as _ H. exact (Hnone q r H).
Qed.

Lemma str_eqb_true (a b : str) : str_eqb a b = true <-> a = b.
Proof. unfold str_eqb. apply bool_decide_eq_true. Qed.

Lemma replaceAtEnd_ext (p : str) : ExtensionRemoved p (replaceAtEnd isMdExt p).
Proof.
  destruct (replaceAtEnd_spec isMdExt p) as [[r [Hs Hr]] | [Hs Hnone]].
  - left. unfold isMdExt in Hr. apply orb_true_iff in Hr.
    destruct Hr as [Hr | Hr]; apply str_eqb_true in Hr; subst r; [left | right]; exact Hs.
  - right. split; [exact Hs|]. intros [q [H | H]].
    + pose proof (Hnone q _ H) as Hw. discriminate Hw.
    + pose proof (Hnone q _ H) as Hw. discriminate Hw.
Qed.

Lemma replaceAtEnd_index (q : str) : IndexRemoved q (replaceAtEnd isSlashIndex q).
Proof.
  destruct (replaceAtEnd_spec isSlashIndex q) as [[r [Hs Hr]] | [Hs Hnone]].
  - left. apply str_eqb_true in Hr. subst r. exact Hs.
  - right. split; [exact Hs|]. intros q' H.
    pose proof (Hnone q' _ H) as Hw. discriminate Hw.
Qed.

(** ** The helpers *)

(** C4. For every markdown body, [markdownToPlain] leaves no white space
    but single spaces, so its result has no line feed, is already trimmed
    and is the only candidate that [chunkText] finds in it: the chunks are
    none when its length does not exceed 40, and otherwise the one chunk
    [slug#para-0] whose text is the whole plain body. *)
Theorem markdownToPlain_one_fragment (strip : str -> str) (md slug : str) :
  let plain := markdownToPlain strip md in
  (forall c, In c plain -> isSpace c = true -> c = " "%char) /\
  (forall c, In c plain -> isNl c = false) /\
  splitOnBlankLines plain = [plain] /\
  trim plain = plain /\
  chunkText plain slug =
    (if 40 <? length plain
     then [{| chunk_id := slug ++ lit "#para-0"; chunk_text := plain |}]
     else []).
Proof.
  intros plain.
  assert (Hsp : forall c, In c plain -> isSpace c = true -> c = " "%char).
  { intros c Hc. apply trim_In in Hc.
    exact (replaceSpaceRuns_space _ _ _ Hc). }
  assert (Hnl : forall c, In c plain -> isNl c = false).
  { intros c Hc. apply trim_In in Hc.
    exact (replaceSpaceRuns_no_nl _ _ _ Hc). }
  assert (Hsplit : splitOnBlankLines plain = [plain])
    by (apply splitBlank_no_nl; exact Hnl).
  assert (Htrim : trim plain = plain) by apply trim_idem.
  repeat split; try assumption.
  unfold chunkText. rewrite Hsplit. simpl List.filter. rewrite Htrim.
  destruct (40 <? length plain); reflexivity.
Qed.

Lemma markdownToPlain_one_fragment_witness :
  chunkText (markdownToPlain noMarkup (para41 ++ [nl; nl] ++ para50 ++ [nl]))
            (lit "post")
  = [{| chunk_id := lit "post#para-0";
        chunk_text := para41 ++ lit " " ++ para50 |}]
  /\ chunkText (markdownToPlain noMarkup (lit "  short

 body ")) (lit "post") = [].
Proof.
  split.
  - exact (proj2 (proj2 (proj2 (proj2
      (markdownToPlain_one_fragment noMarkup
         (para41 ++ [nl; nl] ++ para50 ++ [nl]) (lit "post")))))).
  - exact (proj2 (proj2 (proj2 (proj2
      (markdownToPlain_one_fragment noMarkup (lit "  short

 body ") (lit "post")))))).
Defined.

(** C5 (amended). For every text and slug, the candidates of [chunkText]
    are the pieces of the text between its maximal runs of two or more line
    feeds; the texts of the chunks are, in the original order and
    untrimmed, the candidates whose trimmed length exceeds 40 (a candidate
    of exactly 40 trimmed code units is discarded, one of 41 is kept); the
    chunk at position [i] of the result has the id [slug#para-i]; and a
    text all of whose candidates are that short yields no chunk. *)
Theorem chunkText_spec (text slug : str) :
  SplitsInto text (splitOnBlankLines text) /\
  map chunk_text (chunkText text slug)
  = List.filter (fun p => 40 <? length (trim p)) (splitOnBlankLines text) /\
  (forall i c, nth_error (chunkText text slug) i = Some c ->
               chunk_id c = slug ++ lit "#para-" ++ decimal i) /\
  ((forall p, In p (splitOnBlankLines text) -> length (trim p) <= 40) ->
   chunkText text slug = []).
Proof.
  split; [apply splitBlank_sound|].
  split; [apply mapi_from_text|].
  split.
  - intros i c H. unfold chunkText in H.
    destruct (mapi_from_nth _ _ _ _ _ H) as [p [_ ->]]. reflexivity.
  - intros H. unfold chunkText. rewrite filter_none; [reflexivity|].
    intros p Hp. apply Nat.ltb_ge. exact (H p Hp).
Qed.

Lemma chunkText_spec_witness :
  (exists c, nth_error (chunkText (para41 ++ [nl; nl] ++ para50) (lit "post")) 1 = Some c /\
             chunk_id c = lit "post#para-1") /\
  chunkText (para40 ++ [nl; nl; nl] ++ lit "short") (lit "post") = [].
Proof.
  split.
  - eexists. split; [reflexivity|].
    apply (proj1 (proj2 (proj2 (chunkText_spec (para41 ++ [nl; nl] ++ para50)
                                               (lit "post")))) 1).
    reflexivity.
  - apply (proj2 (proj2 (proj2 (chunkText_spec (para40 ++ [nl; nl; nl] ++ lit "short")
                                               (lit "post"))))).
    intros p Hp. vm_compute in Hp.
    destruct Hp as [<- | [<- | []]]; vm_compute; lia.
Defined.

(** C5, as stated, fails: a text that is one candidate of exactly 40
    trimmed code units has no chunk. *)
Lemma chunkText_drops_forty :
  splitOnBlankLines para40 = [para40] /\
  length (trim para40) = 40 /\
  chunkText para40 (lit "post") = [].
Proof. repeat split. Qed.

(** C6. The slug is the trimmed front-matter override when there is one
    that is not blank, as it is, not lower-cased; otherwise it is the path
    relative to the content directory, with backslashes turned into
    slashes, then without its [.md] or [.mdx] extension, then without a
    trailing [/index], and lower-cased at the end. *)
Theorem deriveSlug_spec (path_relative : str -> str -> str)
        (filePath : str) (fmSlug : option str) :
  (forall o, fmSlug = Some o -> trim o <> [] ->
             deriveSlug path_relative filePath fmSlug = trim o) /\
  (fmSlug = None \/ (exists o, fmSlug = Some o /\ trim o = []) ->
   exists q r,
     ExtensionRemoved (backslashesToSlashes (path_relative CONTENT_DIR filePath)) q /\
     IndexRemoved q r /\
     deriveSlug path_relative filePath fmSlug = toLowerCase r).
Proof.
  split.
  - intros o -> Ho. unfold deriveSlug.
    assert (Hne : str_eqb o [] = false).
    { apply not_true_is_false. intros H. apply str_eqb_true in H.
      subst o. apply Ho. reflexivity. }
    assert (Hnt : str_eqb (trim o) [] = false).
    { apply not_true_is_false. intros H. apply str_eqb_true in H. contradiction. }
    rewrite Hne, Hnt. reflexivity.
  - intros Hcase.
    assert (Hpath : deriveSlug path_relative filePath fmSlug
                    = slugOfPath path_relative filePath).
    { destruct Hcase as [-> | [o [-> Ho]]]; [reflexivity|].
      unfold deriveSlug. rewrite Ho.
      replace (str_eqb [] []) with true by reflexivity.
      rewrite andb_false_r. reflexivity. }
    exists (replaceAtEnd isMdExt
              (backslashesToSlashes (path_relative CONTENT_DIR filePath))).
    eexists. split; [apply replaceAtEnd_ext|].
    split; [apply replaceAtEnd_index|]. exact Hpath.
Qed.

Lemma deriveSlug_spec_witness :
  deriveSlug relativeUnder (lit "src/data/blog/Guides/Intro/index.md")
             (Some (lit " Custom-Slug ")) = lit "Custom-Slug" /\
  exists q r,
    ExtensionRemoved
      (backslashesToSlashes
         (relativeUnder CONTENT_DIR (lit "src/data/blog/Guides/Intro/index.md"))) q /\
    IndexRemoved q r /\
    deriveSlug relativeUnder (lit "src/data/blog/Guides/Intro/index.md") None
    = toLowerCase r.
Proof.
  split.
  - apply (proj1 (deriveSlug_spec relativeUnder
                    (lit "src/data/blog/Guides/Intro/index.md")
                    (Some (lit " Custom-Slug "))) (lit " Custom-Slug "));
      [reflexivity | discriminate].
  - apply (proj2 (deriveSlug_spec relativeUnder
                    (lit "src/data/blog/Guides/Intro/index.md") None)).
    left. reflexivity.
Defined.

Example deriveSlug_index :
  deriveSlug relativeUnder (lit "src/data/blog/Guides/Intro/index.md") None
  = lit "guides/intro".
Proof. reflexivity. Qed.

(** ** The build driver *)

Section MainProperties.

Context {vec : Type}.
Variable w : World vec.

Lemma entryMeta_entryOf (m : Meta) (x : vec) : entryMeta (entryOf m x) = m.
Proof. destruct m. reflexivity. Qed.

Lemma pairBatch_meta (batch : list Item) (outputs : list vec) :
  length batch <= length outputs ->
  map entryMeta (pairBatch batch outputs) = map item_meta batch.
Proof.
  revert outputs. induction batch as [|item batch IH]; intros outputs H.
  - reflexivity.
  - destruct outputs as [|x outputs]; simpl in H; [lia|].
    unfold pairBatch in *. simpl. rewrite entryMeta_entryOf.
    f_equal. apply IH. lia.
Qed.

Lemma forEach_push (f : Chunk -> Item) (l : list Chunk) (v : Vars vec) :
  exists v',
    forEach (fun c => pushQueue (f c)) l v = (Normal tt, v') /\
    queue v' = queue v ++ map f l /\
    embeddings v' = embeddings v /\
    calls v' = calls v.
Proof.
  revert v. induction l as [|c l IH]; intros v.
  - exists v. simpl. rewrite app_nil_r. repeat split.
  - simpl. unfold bind at 1. unfold pushQueue at 1.
    destruct (IH {| queue := queue v ++ [f c]; embeddings := embeddings v;
                    calls := calls v |}) as [v' [Hrun [Hq [He Hc]]]].
    exists v'. simpl in *. rewrite Hrun, Hq, <- app_assoc.
    repeat split; assumption.
Qed.

Lemma pushEntries_run (batch : list Item) (outputs : list vec) (v : Vars vec) :
  exists r v',
    pushEntries batch outputs v = (r, v') /\
    queue v' = queue v /\ calls v' = calls v /\
    match r with
    | Normal _ =>
        length batch <= length outputs /\
        embeddings v' = embeddings v ++ pairBatch batch outputs
    | Abrupt e => e = OutputUndefined
    end.
Proof.
  revert outputs v. induction batch as [|item batch IH]; intros outputs v.
  - exists (Normal tt), v. simpl. unfold pairBatch. simpl. rewrite app_nil_r.
    repeat split. lia.
  - destruct outputs as [|x outputs].
    + exists (Abrupt OutputUndefined), v. repeat split.
    + simpl. unfold bind at 1. unfold pushEmbedding at 1.
      destruct (IH outputs
                   {| queue := queue v;
                      embeddings := embeddings v ++ [entryOf (item_meta item) x];
                      calls := calls v |}) as [r [v' [Hrun [Hq [Hc Hr]]]]].
      exists r, v'. rewrite Hrun. simpl in *.
      repeat split; try assumption.
      destruct r as [u|e]; [|exact Hr]. destruct Hr as [Hlen He].
      split; [lia|]. rewrite He, <- app_assoc. reflexivity.
Qed.

Lemma Flushed_calls (pushed : list Item) (v : Vars vec) :
  Flushed w pushed v -> CallsAnswered w (calls v).
Proof.
  intros [batches [_ [Hc [_ Hall]]]]. unfold CallsAnswered. rewrite Hc.
  clear Hc. induction Hall as [|b batches [outs [Hb _]] _ IH]; simpl.
  - constructor.
  - constructor; [rewrite Hb; discriminate | exact IH].
Qed.

Lemma Flushed_push (pushed items : list Item) (v v1 : Vars vec) :
  Flushed w pushed v ->
  queue v1 = queue v ++ items -> embeddings v1 = embeddings v ->
  calls v1 = calls v ->
  Flushed w (pushed ++ items) v1.
Proof.
  intros [batches [Hp [Hc [He Hall]]]] Hq He1 Hc1. exists batches.
  rewrite Hq, He1, Hc1, Hp, <- app_assoc. repeat split; assumption.
Qed.

(** One call of [flushBatch]. *)
Lemma flushBatch_run (pushed : list Item) (v : Vars vec) :
  Flushed w pushed v ->
  exists r v',
    flushBatch w v = (r, v') /\
    match r with
    | Normal _ => Flushed w pushed v'
    | Abrupt e => e = ExtractorThrew \/ CallsAnswered w (calls v')
    end.
Proof.
  intros HF. pose proof (Flushed_calls _ _ HF) as Hcalls.
  destruct HF as [batches [Hp [Hc [He Hall]]]].
  unfold flushBatch, bind, getQueue.
  destruct (queue v) as [|item q] eqn:Hq.
  - exists (Normal tt), v. split; [reflexivity|].
    exists batches. rewrite Hq. repeat split; assumption.
  - unfold spliceQueue, logCall. cbn [queue embeddings calls].
    rewrite Hq.
    set (batch := firstn BATCH_SIZE (item :: q)).
    destruct (extractor w (map item_text batch)) as [outputs|] eqn:Hex;
      unfold orThrow, ret, throw; cbv beta iota.
    + destruct (pushEntries_run batch outputs
                  {| queue := skipn BATCH_SIZE (item :: q);
                     embeddings := embeddings v;
                     calls := calls v ++ [map item_text batch] |})
        as [r [v' [Hrun [Hq' [Hc' Hr]]]]].
      exists r, v'. split; [exact Hrun|]. cbn [queue embeddings calls] in Hq', Hc', Hr.
      destruct r as [u|e].
      * destruct Hr as [Hlen He'].
        exists (batches ++ [batch]). repeat split.
        -- rewrite Hp, Hq', concat_app. cbn [concat]. rewrite app_nil_r, <- app_assoc.
           f_equal. symmetry. apply firstn_skipn.
        -- rewrite Hc', Hc, map_app. reflexivity.
        -- rewrite He', He, flat_map_app. cbn [flat_map]. rewrite app_nil_r.
           unfold embedBatch. rewrite Hex. reflexivity.
        -- apply List.Forall_app. split; [exact Hall|].
           constructor; [|constructor]. exists outputs. split; assumption.
      * right. rewrite Hc'. apply List.Forall_app. split; [exact Hcalls|].
        constructor; [|constructor]. rewrite Hex. discriminate.
    + eexists (Abrupt ExtractorThrew), _. split; [reflexivity|]. left. reflexivity.
Qed.

(** One turn of the loop over the files. *)
Lemma processFile_run (prev : gmap str Z) (filePath : str)
      (pushed : list Item) (v : Vars vec) :
  Flushed w pushed v ->
  exists r v',
    processFile w prev filePath v = (r, v') /\
    match r with
    | Normal _ =>
        Flushed w (pushed ++ docItems w prev filePath) v' /\
        Loaded w filePath
    | Abrupt e => e = ExtractorThrew \/ CallsAnswered w (calls v')
    end.
Proof.
  intros HF. pose proof (Flushed_calls _ _ HF) as Hcalls.
  unfold processFile, docItems, bind at 1, orThrow at 1.
  destruct (stat w filePath) as [mtime|] eqn:Hstat;
    [|exists (Abrupt StatThrew), v; split; [reflexivity | right; exact Hcalls]].
  unfold ret at 1. unfold bind at 1, orThrow at 1.
  destruct (readFile w filePath) as [contentRaw|] eqn:Hread;
    [|exists (Abrupt ReadFileThrew), v; split; [reflexivity | right; exact Hcalls]].
  unfold ret at 1. unfold bind at 1, orThrow at 1.
  destruct (matter w contentRaw) as [[content fm]|] eqn:Hmatter;
    [|exists (Abrupt MatterThrew), v; split; [reflexivity | right; exact Hcalls]].
  unfold ret at 1. cbn [fst snd].
  assert (HL : Loaded w filePath).
  { exists mtime, contentRaw, (content, fm). repeat split; assumption. }
  destruct (fm_draft fm).
  { exists (Normal tt), v. split; [reflexivity|]. rewrite app_nil_r. split; assumption. }
  destruct (unchanged prev _ mtime).
  { exists (Normal tt), v. split; [reflexivity|]. rewrite app_nil_r. split; assumption. }
  set (slug := deriveSlug (path_relative w) filePath (fm_slug fm)).
  set (mk := itemOfChunk slug (orElse (fm_title fm) slug)
                         (orElse (fm_description fm) []) mtime).
  set (chunks := chunkText (markdownToPlain (strip w) content) slug).
  destruct (forEach_push mk chunks v) as [v1 [Hrun [Hq [He Hc]]]].
  unfold bind at 1. rewrite Hrun.
  pose proof (Flushed_push _ (map mk chunks) _ _ HF Hq He Hc) as HF1.
  unfold bind, getQueue.
  destruct (BATCH_SIZE * MAX_CONCURRENCY <=? length (queue v1)).
  - destruct (flushBatch_run _ _ HF1) as [r [v' [Hflush Hr]]].
    exists r, v'. split; [exact Hflush|].
    destruct r; [split; assumption | exact Hr].
  - exists (Normal tt), v1. split; [reflexivity|]. split; assumption.
Qed.

(** The loop over the files. *)
Lemma loop_run (prev : gmap str Z) (files : list str)
      (pushed : list Item) (v : Vars vec) :
  Flushed w pushed v ->
  exists r v',
    forEach (processFile w prev) files v = (r, v') /\
    match r with
    | Normal _ =>
        Flushed w (pushed ++ flat_map (docItems w prev) files) v' /\
        Forall (Loaded w) files
    | Abrupt e => e = ExtractorThrew \/ CallsAnswered w (calls v')
    end.
Proof.
  revert pushed v. induction files as [|f files IH]; intros pushed v HF.
  - exists (Normal tt), v. split; [reflexivity|].
    cbn [flat_map]. rewrite app_nil_r. split; [exact HF | constructor].
  - cbn [forEach]. unfold bind.
    destruct (processFile_run prev f pushed v HF) as [r [v1 [Hrun Hr]]].
    rewrite Hrun. destruct r as [u|e].
    + destruct Hr as [HF1 HL].
      destruct (IH _ v1 HF1) as [r [v' [Hloop Hr]]].
      exists r, v'. split; [exact Hloop|].
      destruct r as [u'|e]; [|exact Hr]. destruct Hr as [HF' Hall].
      cbn [flat_map]. rewrite app_assoc. split; [exact HF' | constructor; assumption].
    + exists (Abrupt e), v1. split; [reflexivity | exact Hr].
Qed.

Lemma Flushed_noVars : Flushed w [] noVars.
Proof. exists []. repeat split. constructor. Qed.

(** The two ways a run ends. Either it completes, and then the artifact
    is the pairings of answered batches that make up a prefix of the
    pushed items, every file having been loaded; or something threw, and
    then the artifact is what it was. *)
Lemma main_cases :
  (outcome (main w) = Normal tt /\
   Forall (Loaded w) (glob w) /\
   exists batches rest,
     pushedItems w = concat batches ++ rest /\
     extractorCalls (main w) = map (map item_text) batches /\
     artifact (main w) = Some (flat_map (embedBatch w) batches) /\
     Forall (answered w) batches)
  \/
  (exists e,
     outcome (main w) = Abrupt e /\
     artifact (main w) = EMBEDDING_FILE w /\
     (e = ExtractorThrew \/ CallsAnswered w (extractorCalls (main w)))).
Proof.
  unfold main, pushedItems. destruct (glob w) as [|f files] eqn:Hglob.
  - left. split; [reflexivity|]. split; [constructor|].
    exists [], []. repeat split. constructor.
  - set (prev := loadPrev (EMBEDDING_FILE w)).
    destruct (loop_run prev (f :: files) [] noVars Flushed_noVars)
      as [r [v1 [Hloop Hr]]].
    unfold bind. rewrite Hloop. destruct r as [u|e].
    + destruct Hr as [HF Hall]. cbn [app] in HF.
      destruct (flushBatch_run _ _ HF) as [r [v' [Hflush Hr]]].
      rewrite Hflush. destruct r as [u'|e].
      * left. cbn [outcome artifact extractorCalls].
        split; [reflexivity|]. split; [exact Hall|].
        destruct Hr as [batches [Hp [Hc [He Hans]]]].
        exists batches, (queue v'). rewrite He. repeat split; assumption.
      * right. exists e. cbn [outcome artifact extractorCalls].
        repeat split. exact Hr.
    + right. exists e. cbn [outcome artifact extractorCalls].
      repeat split. exact Hr.
Qed.

(** Where an item of a run comes from. *)
Lemma docItems_origin (prev : gmap str Z) (filePath : str) (item : Item) :
  In item (docItems w prev filePath) ->
  exists fm,
    frontMatterOf w filePath = Some fm /\ fm_draft fm = false /\
    meta_slug (item_meta item) = deriveSlug (path_relative w) filePath (fm_slug fm).
Proof.
  unfold docItems, frontMatterOf.
  destruct (stat w filePath) as [mtime|]; [|contradiction].
  destruct (readFile w filePath) as [contentRaw|]; [|contradiction].
  destruct (matter w contentRaw) as [[content fm]|]; [|contradiction].
  destruct (fm_draft fm) eqn:Hdraft; [contradiction|].
  destruct (unchanged prev _ mtime); [contradiction|].
  intros H. apply in_map_iff in H. destruct H as [chunk [<- _]].
  exists fm. repeat split. exact Hdraft.
Qed.

Lemma pairBatch_origin (batch : list Item) (outputs : list vec) (e : IndexEntry vec) :
  In e (pairBatch batch outputs) ->
  exists item, In item batch /\ entryMeta e = item_meta item.
Proof.
  unfold pairBatch. intros H. apply in_map_iff in H.
  destruct H as [[item x] [<- Hin]]. apply in_combine_l in Hin.
  exists item. split; [exact Hin | apply entryMeta_entryOf].
Qed.

Lemma embedBatch_origin (batch : list Item) (e : IndexEntry vec) :
  In e (embedBatch w batch) ->
  exists item, In item batch /\ entryMeta e = item_meta item.
Proof.
  unfold embedBatch. destruct (extractor w (map item_text batch)); [|contradiction].
  apply pairBatch_origin.
Qed.

(** What [prev] holds under a key comes from a record with that id. *)
Lemma loadPrev_origin (file : option (list (IndexEntry vec))) (key : str) (m : Z) :
  loadPrev file !! key = Some m ->
  exists raw e, file = Some raw /\ In e raw /\ entry_id e = key /\ entry_mtime e = m.
Proof.
  destruct file as [raw|]; simpl; [|rewrite lookup_empty; discriminate].
  intros H. exists raw.
  assert (Hgen : forall (acc : gmap str Z),
             fold_left (fun prev e => setProp (entry_id e) (entry_mtime e) prev) raw acc
               !! key = Some m ->
             acc !! key = Some m \/
             exists e, In e raw /\ entry_id e = key /\ entry_mtime e = m).
  { clear H. induction raw as [|e raw IH]; intros acc H; simpl in H.
    - left. exact H.
    - destruct (IH _ H) as [Hacc | [e' [Hin He']]].
      + unfold setProp in Hacc.
        destruct (str_eqb (entry_id e) (lit "__proto__")); [left; exact Hacc|].
        destruct (decide (entry_id e = key)) as [Heq | Hne].
        * rewrite Heq, lookup_insert_eq in Hacc. injection Hacc as Hm.
          right. exists e. repeat split; [left; reflexivity | exact Heq | exact Hm].
        * rewrite lookup_insert_ne in Hacc by exact Hne. left. exact Hacc.
      + right. exists e'. split; [right; exact Hin | exact He']. }
  destruct (Hgen ∅ H) as [Hacc | [e He]].
  - rewrite lookup_empty in Hacc. discriminate.
  - exists e. split; [reflexivity | exact He].
Qed.

(** Line 131 finds a slug in [prev] only when the artifact has a record
    whose id is that slug, with that mtime. *)
Lemma unchanged_needs_id (slug : str) (mtime : Z) :
  unchanged (loadPrev (EMBEDDING_FILE w)) slug mtime = true ->
  exists raw e,
    EMBEDDING_FILE w = Some raw /\ In e raw /\
    entry_id e = slug /\ entry_mtime e = mtime /\ mtime <> 0%Z.
Proof.
  unfold unchanged.
  destruct (loadPrev (EMBEDDING_FILE w) !! slug) as [m|] eqn:Hm; [|discriminate].
  intros H. apply andb_true_iff in H. destruct H as [Hnz Heq].
  apply Z.eqb_eq in Heq. subst m. apply negb_true_iff, Z.eqb_neq in Hnz.
  destruct (loadPrev_origin _ _ _ Hm) as [raw [e [Hf [Hin [Hid Hmt]]]]].
  exists raw, e. repeat split; assumption.
Qed.

Lemma answered_calls (batches : list (list Item)) (texts : list str) :
  Forall (answered w) batches ->
  In texts (map (map item_text) batches) -> extractor w texts <> None.
Proof.
  intros Hall Hin. apply in_map_iff in Hin. destruct Hin as [b [<- Hb]].
  rewrite List.Forall_forall in Hall. destruct (Hall b Hb) as [outs [Hex _]].
  rewrite Hex. discriminate.
Qed.

Lemma embedBatch_metas (batches : list (list Item)) :
  Forall (answered w) batches ->
  map entryMeta (flat_map (embedBatch w) batches) = map item_meta (concat batches).
Proof.
  induction 1 as [|b batches [outs [Hex Hlen]] _ IH]; [reflexivity|].
  cbn [flat_map concat]. rewrite !map_app, IH. f_equal.
  unfold embedBatch. rewrite Hex. apply pairBatch_meta. exact Hlen.
Qed.

(** Every record of the artifact of a completed run was made in that run
    from an item that the loop pushed: none is taken from the artifact
    that the run found. *)
Lemma completed_artifact_origin (idx : list (IndexEntry vec)) (e : IndexEntry vec) :
  outcome (main w) = Normal tt -> artifact (main w) = Some idx -> In e idx ->
  exists item, In item (pushedItems w) /\ entryMeta e = item_meta item.
Proof.
  intros Hout Hart Hin.
  destruct main_cases as [[_ [_ [batches [rest [Hp [_ [Ha _]]]]]]] | [x [Hx _]]];
    [|congruence].
  rewrite Ha in Hart. injection Hart as <-.
  apply in_flat_map in Hin. destruct Hin as [b [Hb He]].
  destruct (embedBatch_origin b e He) as [item [Hitem Hmeta]].
  exists item. split; [|exact Hmeta].
  rewrite Hp. apply in_or_app. left. apply in_concat. exists b. split; assumption.
Qed.

(** C3. When a call of the extractor throws, the run ends with that
    exception and the artifact on disk is what it was before the run. *)
Theorem extractor_failure_keeps_artifact (texts : list str) :
  In texts (extractorCalls (main w)) ->
  extractor w texts = None ->
  outcome (main w) = Abrupt ExtractorThrew /\
  artifact (main w) = EMBEDDING_FILE w.
Proof.
  intros Hin Hex.
  destruct main_cases
    as [[_ [_ [batches [rest [_ [Hc [_ Hans]]]]]]] | [e [Hout [Hart He]]]].
  - exfalso. rewrite Hc in Hin. exact (answered_calls _ _ Hans Hin Hex).
  - destruct He as [-> | Hcalls]; [split; assumption|].
    exfalso. unfold CallsAnswered in Hcalls.
    rewrite List.Forall_forall in Hcalls. exact (Hcalls texts Hin Hex).
Qed.

(** C7. In a corpus whose slugs are unique, the index that a completed
    run writes has no record with the slug of a draft, whatever the
    artifact of the prior build held. *)
Theorem draft_has_no_entries (filePath : str) (fm : FrontMatter)
        (idx : list (IndexEntry vec)) (e : IndexEntry vec) :
  In filePath (glob w) ->
  frontMatterOf w filePath = Some fm ->
  fm_draft fm = true ->
  (forall other, In other (glob w) -> other <> filePath ->
                 slugOf w other <> slugOf w filePath) ->
  outcome (main w) = Normal tt ->
  artifact (main w) = Some idx ->
  In e idx ->
  entry_slug e <> deriveSlug (path_relative w) filePath (fm_slug fm).
Proof.
  intros Hfile Hfm Hdraft Huniq Hout Hart Hin Hslug.
  destruct (completed_artifact_origin idx e Hout Hart Hin) as [item [Hitem Hmeta]].
  unfold pushedItems in Hitem. apply in_flat_map in Hitem.
  destruct Hitem as [other [Hother Hdoc]].
  destruct (docItems_origin _ _ _ Hdoc) as [fm' [Hfm' [Hdraft' Hs]]].
  assert (Hes : entry_slug e = meta_slug (item_meta item))
    by (rewrite <- Hmeta; reflexivity).
  destruct (decide (other = filePath)) as [-> | Hne].
  - rewrite Hfm in Hfm'. injection Hfm' as <-. congruence.
  - apply (Huniq other Hother Hne). unfold slugOf. rewrite Hfm, Hfm'.
    f_equal. congruence.
Qed.

(** C8. The records of the index that a completed run writes are in the
    order in which their items were pushed, which is the order of the
    files and, within a file, of its chunks: the run made its calls of
    the extractor on consecutive batches of the pushed items, each call
    returned a row for every item of its batch, and the index is, batch
    after batch, the i-th item of the batch with the i-th row of the
    output. *)
Theorem entries_in_queue_order (idx : list (IndexEntry vec)) :
  outcome (main w) = Normal tt ->
  artifact (main w) = Some idx ->
  exists batches rest,
    pushedItems w = concat batches ++ rest /\
    extractorCalls (main w) = map (map item_text) batches /\
    Forall (fun batch =>
              exists outputs,
                extractor w (map item_text batch) = Some outputs /\
                length batch <= length outputs /\
                embedBatch w batch = pairBatch batch outputs) batches /\
    idx = flat_map (embedBatch w) batches /\
    map entryMeta idx = map item_meta (concat batches).
Proof.
  intros Hout Hart.
  destruct main_cases as [[_ [_ [batches [rest [Hp [Hc [Ha Hans]]]]]]] | [x [Hx _]]];
    [|congruence].
  rewrite Ha in Hart. injection Hart as <-.
  exists batches, rest. repeat split; try assumption.
  - apply List.Forall_forall. intros b Hb.
    rewrite List.Forall_forall in Hans. destruct (Hans b Hb) as [outs [Hex Hlen]].
    exists outs. repeat split; try assumption.
    unfold embedBatch. rewrite Hex. reflexivity.
  - apply embedBatch_metas. exact Hans.
Qed.

(** C9 (amended). A file whose front matter does not parse ends the run:
    the exception of the parser is not caught, the run completes
    abruptly and the artifact on disk is what it was before the run. *)
Theorem malformed_front_matter_is_fatal (filePath contentRaw : str) :
  In filePath (glob w) ->
  readFile w filePath = Some contentRaw ->
  matter w contentRaw = None ->
  (exists e, outcome (main w) = Abrupt e) /\
  artifact (main w) = EMBEDDING_FILE w.
Proof.
  intros Hfile Hread Hmatter.
  destruct main_cases as [[_ [Hall _]] | [e [Hout [Hart _]]]].
  - exfalso. rewrite List.Forall_forall in Hall.
    destruct (Hall filePath Hfile) as [mtime [raw [parsed [_ [Hr Hm]]]]].
    rewrite Hread in Hr. injection Hr as <-. congruence.
  - split; [exists e; exact Hout | exact Hart].
Qed.

(** C10. With no file in the corpus the run completes and writes the
    empty index, without a call of the extractor. *)
Theorem empty_corpus_writes_empty_index :
  glob w = [] ->
  outcome (main w) = Normal tt /\
  artifact (main w) = Some [] /\
  extractorCalls (main w) = [].
Proof. intros H. unfold main. rewrite H. repeat split. Qed.

End MainProperties.

(** ** Runs of the example corpora *)

(** C1. The code at the carry-forward scenario: [a.md] is not a draft and
    the previous index records its slug [a] with its current mtime 100 in
    [e1] and [e2], yet [prev] is keyed by record id, line 131 does not find
    the slug, the text of [a.md] goes to the extractor, and neither [e1]
    nor [e2] is in the index that the run writes. *)
Theorem unchanged_post_is_recomputed :
  slugOf carryWorld (post_path postA) = Some (entry_slug e1) /\
  stat carryWorld (post_path postA) = Some (entry_mtime e1) /\
  EMBEDDING_FILE carryWorld = Some [e1; e2] /\
  loadPrev (EMBEDDING_FILE carryWorld) !! lit "a" = None /\
  outcome (main carryWorld) = Normal tt /\
  extractorCalls (main carryWorld)
  = [[promptText (lit "A") [] para50; promptText (lit "B") [] para50]] /\
  exists idx,
    artifact (main carryWorld) = Some idx /\ ~ In e1 idx /\ ~ In e2 idx.
Proof.
  repeat split; try (vm_compute; reflexivity).
  eexists. split; [vm_compute; reflexivity|].
  split; intros H; vm_compute in H; destruct H as [H | [H | []]]; discriminate H.
Qed.

(** When line 131 does find the slug (a record whose id is the bare slug),
    the post is skipped and nothing stands for it in the new index: the old
    record is not carried over. *)
Example skipped_post_vanishes :
  unchanged (loadPrev (EMBEDDING_FILE skipWorld)) (lit "a") 100 = true /\
  outcome (main skipWorld) = Normal tt /\
  extractorCalls (main skipWorld) = [[promptText (lit "B") [] para50]] /\
  option_map (map entry_id) (artifact (main skipWorld)) = Some [lit "b#para-0"].
Proof. repeat split; vm_compute; reflexivity. Qed.

(** C2. The code at seventeen new one-paragraph posts: seventeen items are
    pushed, the queue never reaches 32, the only flush is the last one, and
    it takes a single batch of 16: the index has the first sixteen records
    and nothing for the seventeenth item. *)
Theorem final_flush_takes_one_batch :
  map (fun item => meta_id (item_meta item)) (pushedItems seventeenWorld)
  = map (fun n => lit "post-" ++ decimal n ++ lit "#para-0") (seq 1 17) /\
  outcome (main seventeenWorld) = Normal tt /\
  length (extractorCalls (main seventeenWorld)) = 1 /\
  option_map (map entry_id) (artifact (main seventeenWorld))
  = Some (map (fun n => lit "post-" ++ decimal n ++ lit "#para-0") (seq 1 16)).
Proof. repeat split; vm_compute; reflexivity. Qed.

Lemma extractor_failure_keeps_artifact_witness :
  outcome (main brokenWorld) = Abrupt ExtractorThrew /\
  artifact (main brokenWorld) = Some [e1; e2].
Proof.
  apply (extractor_failure_keeps_artifact brokenWorld
           [promptText (lit "A") [] para50; promptText (lit "B") [] para50]).
  - vm_compute. left. reflexivity.
  - reflexivity.
Defined.

Lemma draft_has_no_entries_witness :
  exists idx e,
    artifact (main draftWorld) = Some idx /\ In e idx /\
    entry_slug e <> lit "wip".
Proof.
  eexists. eexists. split; [vm_compute; reflexivity|].
  split; [left; reflexivity|].
  change (lit "wip")
    with (deriveSlug (path_relative draftWorld) (post_path postDraft)
                     (fm_slug {| fm_slug := None; fm_title := Some (lit "Wip");
                                 fm_description := None; fm_draft := true |})).
  eapply (draft_has_no_entries draftWorld (post_path postDraft)).
  - left. reflexivity.
  - vm_compute. reflexivity.
  - reflexivity.
  - intros other Hin Hne. vm_compute in Hin.
    destruct Hin as [<- | [<- | []]].
    + exfalso. apply Hne. reflexivity.
    + vm_compute. discriminate.
  - reflexivity.
  - vm_compute. reflexivity.
  - left. reflexivity.
Defined.

Lemma entries_in_queue_order_witness :
  exists idx,
    artifact (main carryWorld) = Some idx /\
    exists batches rest,
      pushedItems carryWorld = concat batches ++ rest /\
      extractorCalls (main carryWorld) = map (map item_text) batches /\
      Forall (fun batch =>
                exists outputs,
                  extractor carryWorld (map item_text batch) = Some outputs /\
                  length batch <= length outputs /\
                  embedBatch carryWorld batch = pairBatch batch outputs) batches /\
      idx = flat_map (embedBatch carryWorld) batches /\
      map entryMeta idx = map item_meta (concat batches).
Proof.
  eexists. split; [vm_compute; reflexivity|].
  apply (entries_in_queue_order carryWorld); vm_compute; reflexivity.
Defined.

(** C9, as stated, fails: the front matter of [bad.md] does not parse, the
    run ends there, [b.md] is never indexed and nothing is written. *)
Lemma malformed_document_aborts_build :
  In (post_path postBad) (glob badWorld) /\
  frontMatterOf badWorld (post_path postBad) = None /\
  outcome (main badWorld) = Abrupt MatterThrew /\
  extractorCalls (main badWorld) = [] /\
  artifact (main badWorld) = Some [e1].
Proof. repeat split; try (vm_compute; reflexivity). left. reflexivity. Qed.

Lemma malformed_front_matter_is_fatal_witness :
  (exists e, outcome (main badWorld) = Abrupt e) /\
  artifact (main badWorld) = Some [e1].
Proof.
  apply (malformed_front_matter_is_fatal badWorld (post_path postBad)
                                         (post_raw postBad)).
  - left. reflexivity.
  - reflexivity.
  - reflexivity.
Defined.

Lemma empty_corpus_writes_empty_index_witness :
  outcome (main emptyWorld) = Normal tt /\
  artifact (main emptyWorld) = Some [] /\
  extractorCalls (main emptyWorld) = [].
Proof. apply (empty_corpus_writes_empty_index emptyWorld). reflexivity. Defined.

(** * Further properties *)

(** ** One chunk per document *)

Lemma chunkText_of_plain (strip : str -> str) (md slug : str) :
  chunkText (markdownToPlain strip md) slug =
    (if 40 <? length (markdownToPlain strip md)
     then [{| chunk_id := slug ++ lit "#para-0";
              chunk_text := markdownToPlain strip md |}]
     else []).
Proof.
  set (plain := markdownToPlain strip md).
  assert (Hsplit : splitOnBlankLines plain = [plain]).
  { apply splitBlank_no_nl. intros c Hc. apply trim_In in Hc.
    exact (replaceSpaceRuns_no_nl _ _ _ Hc). }
  unfold chunkText. rewrite Hsplit. cbn [List.filter].
  replace (trim plain) with plain by (symmetry; apply trim_idem).
  destruct (40 <? length plain); reflexivity.
Qed.

Section MoreMainProperties.

Context {vec : Type}.
Variable w : World vec.

(** What the loop pushes for a file: nothing, or the one item of its
    whole plain body. *)
Lemma docItems_shape (prev : gmap str Z) (filePath : str) (item : Item) :
  In item (docItems w prev filePath) ->
  exists mtime contentRaw content fm,
    stat w filePath = Some mtime /\
    readFile w filePath = Some contentRaw /\
    matter w contentRaw = Some (content, fm) /\
    fm_draft fm = false /\
    unchanged prev (deriveSlug (path_relative w) filePath (fm_slug fm)) mtime = false /\
    40 < length (markdownToPlain (strip w) content) /\
    docItems w prev filePath = [item] /\
    item =
      let slug := deriveSlug (path_relative w) filePath (fm_slug fm) in
      let title := orElse (fm_title fm) slug in
      let description := orElse (fm_description fm) [] in
      {| item_meta :=
           {| meta_id := slug ++ lit "#para-0"; meta_slug := slug;
              meta_title := title; meta_description := description;
              meta_mtime := mtime |};
         item_text :=
           promptText title description (markdownToPlain (strip w) content) |}.
Proof.
  unfold docItems.
  destruct (stat w filePath) as [mtime|]; [|contradiction].
  destruct (readFile w filePath) as [contentRaw|]; [|contradiction].
  destruct (matter w contentRaw) as [[content fm]|] eqn:Hmatter; [|contradiction].
  destruct (fm_draft fm) eqn:Hdraft; [contradiction|].
  destruct (unchanged prev _ mtime) eqn:Hun; [contradiction|].
  rewrite chunkText_of_plain.
  destruct (40 <? length (markdownToPlain (strip w) content)) eqn:Hlen;
    [|contradiction].
  cbn [map]. intros [<- | []].
  exists mtime, contentRaw, content, fm.
  apply Nat.ltb_lt in Hlen.
  repeat (split; [first [reflexivity | assumption]|]). reflexivity.
Qed.

Lemma docItems_length (prev : gmap str Z) (filePath : str) :
  length (docItems w prev filePath) <= 1.
Proof.
  destruct (docItems w prev filePath) as [|item l] eqn:Hd; [simpl; lia|].
  destruct (docItems_shape prev filePath item) as [? [? [? [? H]]]].
  - rewrite Hd. left. reflexivity.
  - destruct H as [_ [_ [_ [_ [_ [_ [Hone _]]]]]]].
    rewrite Hd in Hone. injection Hone as ->. simpl. lia.
Qed.

Lemma docItems_not_loaded (prev : gmap str Z) (filePath : str) :
  ~ Loaded w filePath -> docItems w prev filePath = [].
Proof.
  intros HL. unfold docItems.
  destruct (stat w filePath) as [mtime|] eqn:Hs; [|reflexivity].
  destruct (readFile w filePath) as [contentRaw|] eqn:Hr; [|reflexivity].
  destruct (matter w contentRaw) as [parsed|] eqn:Hm; [|reflexivity].
  exfalso. apply HL. exists mtime, contentRaw, parsed. repeat split; assumption.
Qed.

Lemma pairBatch_length (batch : list Item) (outputs : list vec) :
  length batch <= length outputs ->
  length (pairBatch batch outputs) = length batch.
Proof.
  intros H. unfold pairBatch. rewrite length_map, length_combine. lia.
Qed.

(** [flushBatch], step by step: with an empty queue it does nothing;
    otherwise it takes the first [BATCH_SIZE] items off the queue and logs
    their texts, and when it completes it has added a record for each. *)
Lemma flushBatch_detail (v : Vars vec) :
  exists r v',
    flushBatch w v = (r, v') /\
    ((queue v = [] /\ r = Normal tt /\ v' = v) \/
     (queue v <> [] /\
      queue v' = skipn BATCH_SIZE (queue v) /\
      calls v' = calls v ++ [map item_text (firstn BATCH_SIZE (queue v))] /\
      match r with
      | Normal _ =>
          length (embeddings v')
          = length (embeddings v) + length (firstn BATCH_SIZE (queue v))
      | Abrupt _ => True
      end)).
Proof.
  unfold flushBatch, bind, getQueue.
  destruct (queue v) as [|item q] eqn:Hq.
  - exists (Normal tt), v. split; [reflexivity|]. left. repeat split.
  - unfold spliceQueue, logCall. cbn [queue embeddings calls]. rewrite Hq.
    set (batch := firstn BATCH_SIZE (item :: q)).
    destruct (extractor w (map item_text batch)) as [outputs|] eqn:Hex;
      unfold orThrow, ret, throw; cbv beta iota.
    + destruct (pushEntries_run batch outputs
                  {| queue := skipn BATCH_SIZE (item :: q);
                     embeddings := embeddings v;
                     calls := calls v ++ [map item_text batch] |})
        as [r [v' [Hrun [Hq' [Hc' Hr]]]]].
      exists r, v'. split; [exact Hrun|]. right.
      cbn [queue embeddings calls] in Hq', Hc', Hr.
      split; [discriminate|]. split; [exact Hq'|]. split; [exact Hc'|].
      destruct r as [u|e]; [|exact I]. destruct Hr as [Hlen He].
      rewrite He, length_app, pairBatch_length by exact Hlen. reflexivity.
    + eexists (Abrupt ExtractorThrew), _. split; [reflexivity|]. right.
      cbn [queue embeddings calls]. repeat split. discriminate.
Qed.

(** One turn of the loop, step by step: the items of the file join the
    queue, and [flushBatch] runs when the queue has reached 32. *)
Lemma processFile_detail (prev : gmap str Z) (filePath : str) (v : Vars vec) :
  exists r v' v1,
    processFile w prev filePath v = (r, v') /\
    queue v1 = queue v ++ docItems w prev filePath /\
    embeddings v1 = embeddings v /\
    calls v1 = calls v /\
    ((v' = v1 /\ (r = Normal tt \/ ~ Loaded w filePath) /\
      (docItems w prev filePath = [] \/
       length (queue v1) < BATCH_SIZE * MAX_CONCURRENCY)) \/
     (BATCH_SIZE * MAX_CONCURRENCY <= length (queue v1) /\
      flushBatch w v1 = (r, v'))).
Proof.
  assert (Hfail : forall e, ~ Loaded w filePath ->
            exists r v' v1,
              (Abrupt e, v) = (r, v') /\
              queue v1 = queue v ++ docItems w prev filePath /\
              embeddings v1 = embeddings v /\ calls v1 = calls v /\
              ((v' = v1 /\ (r = Normal tt \/ ~ Loaded w filePath) /\
                (docItems w prev filePath = [] \/
                 length (queue v1) < BATCH_SIZE * MAX_CONCURRENCY)) \/
               (BATCH_SIZE * MAX_CONCURRENCY <= length (queue v1) /\
                flushBatch w v1 = (r, v')))).
  { intros e HL. exists (Abrupt e), v, v.
    rewrite (docItems_not_loaded prev filePath HL), app_nil_r.
    repeat split. left.
    split; [reflexivity | split; [right; exact HL | left; reflexivity]]. }
  unfold processFile, bind at 1, orThrow at 1.
  destruct (stat w filePath) as [mtime|] eqn:Hstat.
  2:{ apply Hfail. intros [m [c [p [H _]]]]. congruence. }
  unfold ret at 1. unfold bind at 1, orThrow at 1.
  destruct (readFile w filePath) as [contentRaw|] eqn:Hread.
  2:{ apply Hfail. intros [m [c [p [_ [H _]]]]]. congruence. }
  unfold ret at 1. unfold bind at 1, orThrow at 1.
  destruct (matter w contentRaw) as [[content fm]|] eqn:Hmatter.
  2:{ apply Hfail. intros [m [c [p [_ [Hr Hm]]]]]. congruence. }
  clear Hfail. unfold ret at 1. cbn [fst snd].
  unfold docItems. rewrite Hstat, Hread, Hmatter.
  destruct (fm_draft fm).
  { exists (Normal tt), v, v. rewrite app_nil_r. repeat split.
    left. split; [reflexivity | split; left; reflexivity]. }
  destruct (unchanged prev _ mtime).
  { exists (Normal tt), v, v. rewrite app_nil_r. repeat split.
    left. split; [reflexivity | split; left; reflexivity]. }
  set (slug := deriveSlug (path_relative w) filePath (fm_slug fm)).
  set (mk := itemOfChunk slug (orElse (fm_title fm) slug)
                         (orElse (fm_description fm) []) mtime).
  set (chunks := chunkText (markdownToPlain (strip w) content) slug).
  destruct (forEach_push mk chunks v) as [v1 [Hrun [Hq [He Hc]]]].
  unfold bind at 1. rewrite Hrun. unfold bind, getQueue.
  destruct (BATCH_SIZE * MAX_CONCURRENCY <=? length (queue v1)) eqn:Hfull.
  - destruct (flushBatch w v1) as [r v'] eqn:Hflush.
    exists r, v', v1. repeat split; try assumption.
    right. split; [apply Nat.leb_le; exact Hfull | exact Hflush].
  - exists (Normal tt), v1, v1. repeat split; try assumption.
    left. split; [reflexivity | split; [left; reflexivity | right]].
    apply Nat.leb_gt. exact Hfull.
Qed.

(** *** What goes to the extractor, in every run *)

Lemma Sent_push (pushed items : list Item) (v v1 : Vars vec) :
  Sent pushed v ->
  queue v1 = queue v ++ items -> calls v1 = calls v ->
  Sent (pushed ++ items) v1.
Proof.
  intros [batches [Hp [Hc Hall]]] Hq Hc1. exists batches.
  rewrite Hq, Hc1, Hp, <- app_assoc. repeat split; assumption.
Qed.

Lemma flushBatch_sent (pushed : list Item) (v v' : Vars vec) (r : Completion unit) :
  Sent pushed v -> flushBatch w v = (r, v') -> Sent pushed v'.
Proof.
  intros HS Hrun.
  destruct (flushBatch_detail v) as [r0 [v0 [Hrun0 Hcase]]].
  rewrite Hrun in Hrun0. injection Hrun0 as <- <-.
  destruct Hcase as [[_ [_ ->]] | [Hne [Hq [Hc _]]]]; [exact HS|].
  destruct HS as [batches [Hp [Hcalls Hall]]].
  exists (batches ++ [firstn BATCH_SIZE (queue v)]). repeat split.
  - rewrite Hp, Hq, concat_app. cbn [concat]. rewrite app_nil_r, <- app_assoc.
    f_equal. symmetry. apply firstn_skipn.
  - rewrite Hc, Hcalls, map_app. reflexivity.
  - apply List.Forall_app. split; [exact Hall|]. constructor; [|constructor].
    rewrite length_firstn. destruct (queue v); [contradiction|].
    unfold BATCH_SIZE. simpl length. lia.
Qed.

Lemma processFile_sent (prev : gmap str Z) (filePath : str)
      (pushed : list Item) (v v' : Vars vec) (r : Completion unit) :
  Sent pushed v -> processFile w prev filePath v = (r, v') ->
  Sent (pushed ++ docItems w prev filePath) v'.
Proof.
  intros HS Hrun.
  destruct (processFile_detail prev filePath v)
    as [r0 [v0 [v1 [Hrun0 [Hq [_ [Hc Hcase]]]]]]].
  rewrite Hrun in Hrun0. injection Hrun0 as <- <-.
  pose proof (Sent_push _ _ _ _ HS Hq Hc) as HS1.
  destruct Hcase as [[-> _] | [_ Hflush]]; [exact HS1|].
  exact (flushBatch_sent _ _ _ _ HS1 Hflush).
Qed.

Lemma loop_sent (prev : gmap str Z) (files : list str)
      (pushed : list Item) (v v' : Vars vec) (r : Completion unit) :
  Sent pushed v -> forEach (processFile w prev) files v = (r, v') ->
  exists done rest,
    files = done ++ rest /\
    Sent (pushed ++ flat_map (docItems w prev) done) v'.
Proof.
  revert pushed v. induction files as [|f files IH]; intros pushed v HS Hrun.
  - cbn in Hrun. injection Hrun as <- <-. exists [], []. split; [reflexivity|].
    cbn [flat_map]. rewrite app_nil_r. exact HS.
  - cbn [forEach] in Hrun. unfold bind in Hrun.
    destruct (processFile w prev f v) as [r1 v1] eqn:Hf.
    pose proof (processFile_sent _ _ _ _ _ _ HS Hf) as HS1.
    destruct r1 as [u|e].
    + destruct (IH _ _ HS1 Hrun) as [done [rest [-> HS']]].
      exists (f :: done), rest. split; [reflexivity|].
      cbn [flat_map]. rewrite app_assoc. exact HS'.
    + injection Hrun as <- <-. exists [f], files. split; [reflexivity|].
      cbn [flat_map]. rewrite app_nil_r. exact HS1.
Qed.

Lemma Sent_noVars : Sent [] (@noVars vec).
Proof. exists []. repeat split. constructor. Qed.

Lemma main_sent :
  exists batches rest,
    pushedItems w = concat batches ++ rest /\
    extractorCalls (main w) = map (map item_text) batches /\
    Forall (fun batch => 1 <= length batch <= BATCH_SIZE) batches.
Proof.
  unfold main, pushedItems. destruct (glob w) as [|f files] eqn:Hglob.
  - exists [], []. repeat split. constructor.
  - set (prev := loadPrev (EMBEDDING_FILE w)). unfold bind.
    destruct (forEach (processFile w prev) (f :: files) noVars) as [r v1] eqn:Hloop.
    destruct (loop_sent _ _ _ _ _ _ Sent_noVars Hloop) as [done [rest [-> HS]]].
    cbn [app] in HS. rewrite flat_map_app.
    assert (Hend : forall v' : Vars vec,
              Sent (flat_map (docItems w prev) done) v' ->
              exists batches rest0,
                flat_map (docItems w prev) done ++ flat_map (docItems w prev) rest
                = concat batches ++ rest0 /\
                calls v' = map (map item_text) batches /\
                Forall (fun batch => 1 <= length batch <= BATCH_SIZE) batches).
    { intros v' [batches [Hp [Hc Hall]]].
      exists batches, (queue v' ++ flat_map (docItems w prev) rest).
      rewrite Hp, <- app_assoc. repeat split; assumption. }
    destruct r as [u|e].
    + destruct (flushBatch w v1) as [r' v'] eqn:Hflush.
      pose proof (flushBatch_sent _ _ _ _ HS Hflush) as HS'.
      destruct r'; cbn [extractorCalls]; apply Hend; exact HS'.
    + cbn [extractorCalls]. apply Hend. exact HS.
Qed.

(** *** How many records a completed run writes *)

Lemma Counted_turn (prev : gmap str Z) (filePath : str) (n : nat)
      (v v' : Vars vec) (u : unit) :
  Counted n v -> processFile w prev filePath v = (Normal u, v') ->
  Counted (n + length (docItems w prev filePath)) v'.
Proof.
  intros [Hsum [Hq [Hlow Hhigh]]] Hrun.
  destruct (processFile_detail prev filePath v)
    as [r0 [v0 [v1 [Hrun0 [Hq1 [He1 [_ Hcase]]]]]]].
  rewrite Hrun in Hrun0. injection Hrun0 as <- <-.
  pose proof (docItems_length prev filePath) as Hk.
  assert (Hlen1 : length (queue v1)
                  = length (queue v) + length (docItems w prev filePath))
    by (rewrite Hq1, length_app; reflexivity).
  unfold Counted, BATCH_SIZE, MAX_CONCURRENCY in *.
  destruct Hcase as [[-> [_ Hsmall]] | [Hfull Hflush]].
  - assert (Hq1' : length (queue v1) < 16 * 2).
    { destruct Hsmall as [Hnil | Hlt]; [|exact Hlt].
      rewrite Hnil in Hlen1. simpl in Hlen1. lia. }
    rewrite He1.
    pose proof (Nat.div_mod_eq n 16).
    pose proof (Nat.mod_upper_bound n 16).
    pose proof (Nat.div_mod_eq (n + length (docItems w prev filePath)) 16).
    pose proof (Nat.mod_upper_bound (n + length (docItems w prev filePath)) 16).
    repeat split; lia.
  - destruct (flushBatch_detail v1) as [r0 [v0 [Hrun0 Hdet]]].
    rewrite Hflush in Hrun0. injection Hrun0 as <- <-.
    destruct Hdet as [[Hnil _] | [_ [Hq' [_ He']]]].
    + rewrite Hnil in Hfull. simpl in Hfull. lia.
    + assert (Hlq : length (queue v') = length (queue v1) - 16)
        by (rewrite Hq'; apply length_skipn).
      rewrite length_firstn, He1 in He'. unfold BATCH_SIZE in He'.
      pose proof (Nat.div_mod_eq n 16).
      pose proof (Nat.mod_upper_bound n 16).
      pose proof (Nat.div_mod_eq (n + length (docItems w prev filePath)) 16).
      pose proof (Nat.mod_upper_bound (n + length (docItems w prev filePath)) 16).
      repeat split; lia.
Qed.

Lemma Counted_loop (prev : gmap str Z) (files : list str) (n : nat)
      (v v' : Vars vec) (u : unit) :
  Counted n v -> forEach (processFile w prev) files v = (Normal u, v') ->
  Counted (n + length (flat_map (docItems w prev) files)) v'.
Proof.
  revert n v. induction files as [|f files IH]; intros n v HC Hrun.
  - cbn in Hrun. injection Hrun as _ <-. cbn. rewrite Nat.add_0_r. exact HC.
  - cbn [forEach] in Hrun. unfold bind in Hrun.
    destruct (processFile w prev f v) as [[u1|e] v1] eqn:Hf; [|discriminate].
    pose proof (Counted_turn _ _ _ _ _ _ HC Hf) as HC1.
    pose proof (IH _ _ HC1 Hrun) as HC'.
    cbn [flat_map]. rewrite length_app, Nat.add_assoc. exact HC'.
Qed.

Lemma Counted_last (n : nat) (v v' : Vars vec) (u : unit) :
  Counted n v -> flushBatch w v = (Normal u, v') ->
  length (embeddings v') = writtenCount n.
Proof.
  intros [Hsum [Hq [Hlow Hhigh]]] Hflush.
  destruct (flushBatch_detail v) as [r0 [v0 [Hrun0 Hdet]]].
  rewrite Hflush in Hrun0. injection Hrun0 as <- <-.
  unfold writtenCount, BATCH_SIZE, MAX_CONCURRENCY in *.
  pose proof (Nat.div_mod_eq n 16). pose proof (Nat.mod_upper_bound n 16).
  destruct Hdet as [[Hnil [_ ->]] | [_ [_ [_ He']]]].
  - rewrite Hnil in *. simpl in *.
    destruct (n <? 32) eqn:Hn;
      [apply Nat.ltb_lt in Hn | apply Nat.ltb_ge in Hn]; lia.
  - rewrite length_firstn in He'. change (16 * 2) with 32 in *.
    destruct (n <? 32) eqn:Hn;
      [apply Nat.ltb_lt in Hn | apply Nat.ltb_ge in Hn]; lia.
Qed.

Lemma completed_count (idx : list (IndexEntry vec)) :
  outcome (main w) = Normal tt -> artifact (main w) = Some idx ->
  length idx = writtenCount (length (pushedItems w)).
Proof.
  unfold main, pushedItems. destruct (glob w) as [|f files] eqn:Hglob.
  - cbn. intros _ H. injection H as <-. reflexivity.
  - set (prev := loadPrev (EMBEDDING_FILE w)). unfold bind.
    destruct (forEach (processFile w prev) (f :: files) noVars)
      as [[u|e] v1] eqn:Hloop; [|discriminate].
    destruct (flushBatch w v1) as [[u'|e] v'] eqn:Hflush; [|discriminate].
    cbn [outcome artifact]. intros _ H. injection H as <-.
    assert (H0 : Counted 0 (@noVars vec)).
    { unfold Counted, BATCH_SIZE, MAX_CONCURRENCY. cbn. repeat split; lia. }
    pose proof (Counted_loop _ _ _ _ _ _ H0 Hloop) as HC.
    exact (Counted_last _ _ _ _ HC Hflush).
Qed.

Lemma In_combine_nth {A B} (l : list A) (l' : list B) (a : A) (b : B) :
  In (a, b) (combine l l') ->
  exists i, nth_error l i = Some a /\ nth_error l' i = Some b.
Proof.
  revert l'. induction l as [|x l IH]; intros [|y l'] H; try contradiction.
  destruct H as [H | H].
  - injection H as -> ->. exists 0. split; reflexivity.
  - destruct (IH l' H) as [i Hi]. exists (S i). exact Hi.
Qed.

(** X1. In every run, completed or not, each call of the extractor has
    from 1 to 16 texts, and the calls taken together are, in order, the
    texts of a prefix of the pushed items. *)
Theorem extractor_calls_are_batches :
  Forall (fun texts => 1 <= length texts <= BATCH_SIZE) (extractorCalls (main w)) /\
  exists rest,
    map item_text (pushedItems w) = concat (extractorCalls (main w)) ++ rest.
Proof.
  destruct main_sent as [batches [rest [Hp [Hc Hall]]]]. rewrite Hc. split.
  - apply List.Forall_forall. intros texts Hin. apply in_map_iff in Hin.
    destruct Hin as [b [<- Hb]]. rewrite length_map.
    rewrite List.Forall_forall in Hall. exact (Hall b Hb).
  - exists (map item_text rest). rewrite Hp, map_app. f_equal.
    apply concat_map.
Qed.

(** X2. In every run, a text that reaches the extractor is the title, the
    description and the whole plain body of a file of the corpus that was
    loaded, is not a draft, did not pass the unchanged test and has a
    plain body of more than 40 code units. *)
Theorem extractor_text_origin (texts : list str) (t : str) :
  In texts (extractorCalls (main w)) -> In t texts ->
  exists filePath mtime contentRaw content fm,
    In filePath (glob w) /\
    stat w filePath = Some mtime /\
    readFile w filePath = Some contentRaw /\
    matter w contentRaw = Some (content, fm) /\
    fm_draft fm = false /\
    unchanged (loadPrev (EMBEDDING_FILE w))
              (deriveSlug (path_relative w) filePath (fm_slug fm)) mtime = false /\
    40 < length (markdownToPlain (strip w) content) /\
    t = promptText
          (orElse (fm_title fm) (deriveSlug (path_relative w) filePath (fm_slug fm)))
          (orElse (fm_description fm) [])
          (markdownToPlain (strip w) content).
Proof.
  intros Hcall Ht.
  destruct main_sent as [batches [rest [Hp [Hc _]]]].
  rewrite Hc in Hcall. apply in_map_iff in Hcall. destruct Hcall as [b [<- Hb]].
  apply in_map_iff in Ht. destruct Ht as [item [<- Hitem]].
  assert (Hpushed : In item (pushedItems w)).
  { rewrite Hp. apply in_or_app. left. apply in_concat. exists b. split; assumption. }
  unfold pushedItems in Hpushed. apply in_flat_map in Hpushed.
  destruct Hpushed as [filePath [Hfile Hdoc]].
  destruct (docItems_shape _ _ _ Hdoc)
    as [mtime [contentRaw [content [fm [Hs [Hr [Hm [Hd [Hu [Hl [_ ->]]]]]]]]]]].
  exists filePath, mtime, contentRaw, content, fm.
  repeat (split; [assumption|]). reflexivity.
Qed.

(** X3. A completed run over [n] pushed items writes [min n 16] records
    when [n] is below 32 and [n - n mod 16] records otherwise. *)
Theorem written_record_count (idx : list (IndexEntry vec)) :
  outcome (main w) = Normal tt -> artifact (main w) = Some idx ->
  length idx =
    (if length (pushedItems w) <? 32
     then Nat.min (length (pushedItems w)) 16
     else length (pushedItems w) - length (pushedItems w) mod 16).
Proof. intros Hout Hart. exact (completed_count idx Hout Hart). Qed.

(** X4. The index of a completed run has a record for every pushed item,
    in push order, exactly when at most 16 items were pushed or at least
    32 and a multiple of 16. *)
Theorem index_complete_iff (idx : list (IndexEntry vec)) :
  outcome (main w) = Normal tt -> artifact (main w) = Some idx ->
  (map entryMeta idx = map item_meta (pushedItems w) <->
   (length (pushedItems w) <= 16 \/
    (32 <= length (pushedItems w) /\ length (pushedItems w) mod 16 = 0))).
Proof.
  intros Hout Hart. pose proof (completed_count idx Hout Hart) as Hcount.
  unfold writtenCount, BATCH_SIZE, MAX_CONCURRENCY in Hcount.
  change (16 * 2) with 32 in Hcount.
  pose proof (Nat.div_mod_eq (length (pushedItems w)) 16).
  pose proof (Nat.mod_upper_bound (length (pushedItems w)) 16).
  assert (Hiff : length idx = length (pushedItems w) <->
                 (length (pushedItems w) <= 16 \/
                  (32 <= length (pushedItems w) /\
                   length (pushedItems w) mod 16 = 0))).
  { destruct (length (pushedItems w) <? 32) eqn:Hn;
      [apply Nat.ltb_lt in Hn | apply Nat.ltb_ge in Hn]; lia. }
  rewrite <- Hiff. clear Hiff Hcount.
  destruct (main_cases w)
    as [[_ [_ [batches [rest [Hp [_ [Ha Hans]]]]]]] | [x [Hx _]]]; [|congruence].
  rewrite Ha in Hart. injection Hart as <-.
  pose proof (embedBatch_metas w batches Hans) as Hmeta.
  split.
  - intros Heq. rewrite <- (length_map entryMeta), Heq, length_map. reflexivity.
  - intros Heq.
    assert (Hlen : length (flat_map (embedBatch w) batches) = length (concat batches))
      by (rewrite <- (length_map entryMeta), Hmeta, length_map; reflexivity).
    rewrite Hp, length_app in Heq.
    assert (Hrest : rest = []) by (apply length_zero_iff_nil; lia). subst rest.
    rewrite Hmeta, Hp, app_nil_r. reflexivity.
Qed.

(** X5. Every record of the index that a completed run writes stands for a
    file of the corpus that was loaded and is not a draft: its slug is the
    slug of the file, its id is the slug followed by [#para-0], its title
    and description are those of the front matter (the slug and the empty
    string when missing or empty), its mtime is that of the file, and its
    vector is the row that a call of the extractor returned at the
    position of the text of the file. *)
Theorem written_record_shape (idx : list (IndexEntry vec)) (e : IndexEntry vec) :
  outcome (main w) = Normal tt -> artifact (main w) = Some idx -> In e idx ->
  exists filePath mtime contentRaw content fm texts outputs i,
    In filePath (glob w) /\
    stat w filePath = Some mtime /\
    readFile w filePath = Some contentRaw /\
    matter w contentRaw = Some (content, fm) /\
    fm_draft fm = false /\
    entry_slug e = deriveSlug (path_relative w) filePath (fm_slug fm) /\
    entry_id e = entry_slug e ++ lit "#para-0" /\
    entry_title e = orElse (fm_title fm) (entry_slug e) /\
    entry_description e = orElse (fm_description fm) [] /\
    entry_mtime e = mtime /\
    In texts (extractorCalls (main w)) /\
    extractor w texts = Some outputs /\
    nth_error texts i
    = Some (promptText (entry_title e) (entry_description e)
                       (markdownToPlain (strip w) content)) /\
    nth_error outputs i = Some (entry_vector e).
Proof.
  intros Hout Hart Hin.
  destruct (main_cases w)
    as [[_ [_ [batches [rest [Hp [Hc [Ha Hans]]]]]]] | [x [Hx _]]]; [|congruence].
  rewrite Ha in Hart. injection Hart as <-.
  apply in_flat_map in Hin. destruct Hin as [b [Hb He]].
  rewrite List.Forall_forall in Hans. destruct (Hans b Hb) as [outputs [Hex _]].
  unfold embedBatch in He. rewrite Hex in He. unfold pairBatch in He.
  apply in_map_iff in He. destruct He as [[item x] [<- Hpair]]. cbn [fst snd].
  destruct (In_combine_nth _ _ _ _ Hpair) as [i [Hi Hx]].
  assert (Hpushed : In item (pushedItems w)).
  { rewrite Hp. apply in_or_app. left. apply in_concat. exists b.
    split; [exact Hb | exact (nth_error_In _ _ Hi)]. }
  unfold pushedItems in Hpushed. apply in_flat_map in Hpushed.
  destruct Hpushed as [filePath [Hfile Hdoc]].
  destruct (docItems_shape _ _ _ Hdoc)
    as [mtime [contentRaw [content [fm [Hs [Hr [Hm [Hd [_ [_ [_ Hitem]]]]]]]]]]].
  exists filePath, mtime, contentRaw, content, fm, (map item_text b), outputs, i.
  repeat (split; [assumption|]).
  rewrite Hitem. cbn.
  repeat (split; [reflexivity|]).
  split; [rewrite Hc; apply in_map; exact Hb|].
  split; [exact Hex|].
  split; [|exact Hx].
  rewrite nth_error_map, Hi, Hitem. reflexivity.
Qed.

(** X6. A file that cannot be stat'ed or read ends the run: the run
    completes abruptly and the artifact on disk is what it was. *)
Theorem unreadable_file_is_fatal (filePath : str) :
  In filePath (glob w) ->
  stat w filePath = None \/ readFile w filePath = None ->
  (exists e, outcome (main w) = Abrupt e) /\
  artifact (main w) = EMBEDDING_FILE w.
Proof.
  intros Hfile Hfail.
  destruct (main_cases w) as [[_ [Hall _]] | [e [Hout [Hart _]]]].
  - exfalso. rewrite List.Forall_forall in Hall.
    destruct (Hall filePath Hfile) as [mtime [raw [parsed [Hs [Hr _]]]]].
    destruct Hfail; congruence.
  - split; [exists e; exact Hout | exact Hart].
Qed.

Lemma docItems_id (prev : gmap str Z) (filePath : str) (item : Item) :
  In item (docItems w prev filePath) ->
  exists slug,
    slugOf w filePath = Some slug /\
    meta_id (item_meta item) = slug ++ lit "#para-0" /\
    docItems w prev filePath = [item].
Proof.
  intros H.
  destruct (docItems_shape _ _ _ H)
    as [mtime [contentRaw [content [fm [_ [Hr [Hm [_ [_ [_ [Hone ->]]]]]]]]]]].
  exists (deriveSlug (path_relative w) filePath (fm_slug fm)).
  split; [|split; [reflexivity | exact Hone]].
  unfold slugOf, frontMatterOf. rewrite Hr, Hm. reflexivity.
Qed.

Lemma pushed_ids_NoDup (prev : gmap str Z) (files : list str) :
  List.NoDup files ->
  (forall f f' slug, In f files -> In f' files ->
                     slugOf w f = Some slug -> slugOf w f' = Some slug -> f = f') ->
  List.NoDup (map (fun item => meta_id (item_meta item))
             (flat_map (docItems w prev) files)).
Proof.
  induction 1 as [|f files Hnotin Hnd IH]; intros Hinj; [constructor|].
  assert (IH' : List.NoDup (map (fun item => meta_id (item_meta item))
                           (flat_map (docItems w prev) files))).
  { apply IH. intros a b slug Ha Hb. apply Hinj; right; assumption. }
  cbn [flat_map]. destruct (docItems w prev f) as [|item l] eqn:Hd; [exact IH'|].
  destruct (docItems_id prev f item) as [slug [Hslug [Hid Hone]]];
    [rewrite Hd; left; reflexivity|].
  rewrite Hd in Hone. injection Hone as ->. cbn [app map].
  constructor; [|exact IH'].
  intros Hin. apply in_map_iff in Hin. destruct Hin as [item' [Hid' Hin']].
  apply in_flat_map in Hin'. destruct Hin' as [f' [Hf' Hdoc']].
  destruct (docItems_id prev f' item' Hdoc') as [slug' [Hslug' [Hid'' _]]].
  rewrite Hid, Hid'' in Hid'. apply app_inv_tail in Hid'. subst slug'.
  apply Hnotin. rewrite (Hinj f f' slug); try assumption.
  - left. reflexivity.
  - right. exact Hf'.
Qed.

(** X7. When [glob] lists no file twice and no two files have the same
    slug, the records of the index that a completed run writes have
    pairwise distinct ids. *)
Theorem index_ids_unique (idx : list (IndexEntry vec)) :
  List.NoDup (glob w) ->
  (forall f f' slug, In f (glob w) -> In f' (glob w) ->
                     slugOf w f = Some slug -> slugOf w f' = Some slug -> f = f') ->
  outcome (main w) = Normal tt -> artifact (main w) = Some idx ->
  List.NoDup (map entry_id idx).
Proof.
  intros Hnd Hinj Hout Hart.
  destruct (main_cases w)
    as [[_ [_ [batches [rest [Hp [_ [Ha Hans]]]]]]] | [x [Hx _]]]; [|congruence].
  rewrite Ha in Hart. injection Hart as <-.
  pose proof (pushed_ids_NoDup (loadPrev (EMBEDDING_FILE w)) (glob w) Hnd Hinj) as Hids.
  fold (pushedItems w) in Hids. rewrite Hp, map_app in Hids.
  apply List.NoDup_app_remove_r in Hids.
  replace (map entry_id (flat_map (embedBatch w) batches))
    with (map meta_id (map entryMeta (flat_map (embedBatch w) batches)))
    by (rewrite map_map; reflexivity).
  rewrite (embedBatch_metas w batches Hans), map_map. exact Hids.
Qed.

Lemma loadPrev_find (raw : list (IndexEntry vec)) (key : str) :
  loadPrev (Some raw) !! key =
    if str_eqb key (lit "__proto__") then None
    else option_map entry_mtime
                    (find (fun e => str_eqb (entry_id e) key) (rev raw)).
Proof.
  unfold loadPrev.
  assert (Hfold :
            fold_left (fun prev e => setProp (entry_id e) (entry_mtime e) prev)
                      raw (∅ : gmap str Z)
            = fold_right (fun e prev => setProp (entry_id e) (entry_mtime e) prev)
                         ∅ (rev raw))
    by (symmetry; apply fold_left_rev_right).
  rewrite Hfold. clear Hfold.
  induction (rev raw) as [|e l IH]; cbn [fold_right find].
  - rewrite lookup_empty. destruct (str_eqb key (lit "__proto__")); reflexivity.
  - unfold setProp at 1.
    destruct (str_eqb (entry_id e) (lit "__proto__")) eqn:Hproto.
    + rewrite IH. apply str_eqb_true in Hproto.
      destruct (str_eqb key (lit "__proto__")) eqn:Hkey; [reflexivity|].
      destruct (str_eqb (entry_id e) key) eqn:Hid; [|reflexivity].
      apply str_eqb_true in Hid. rewrite <- Hid, Hproto in Hkey. discriminate Hkey.
    + destruct (str_eqb (entry_id e) key) eqn:Hid.
      * apply str_eqb_true in Hid. subst key.
        rewrite lookup_insert_eq, Hproto. reflexivity.
      * rewrite lookup_insert_ne, IH; [reflexivity|].
        intros Heq. apply str_eqb_true in Heq. congruence.
Qed.

(** X8. What [prev] holds under a key: nothing under ["__proto__"], and
    otherwise the mtime of the last record of the artifact whose id is the
    key, nothing when there is none. *)
Theorem loadPrev_lookup (raw : list (IndexEntry vec)) (key : str) :
  loadPrev (Some raw) !! key =
    if str_eqb key (lit "__proto__") then None
    else option_map entry_mtime
                    (find (fun e => str_eqb (entry_id e) key) (rev raw)).
Proof. apply loadPrev_find. Qed.

(** X20. The test of line 131 holds for a slug and an mtime exactly when
    the slug is not ["__proto__"], the mtime is not 0, and the last record
    of the artifact whose id (not whose slug) is that slug has that
    mtime. *)
Theorem skip_condition (raw : list (IndexEntry vec)) (slug : str) (mtime : Z) :
  unchanged (loadPrev (Some raw)) slug mtime = true <->
  slug <> lit "__proto__" /\ mtime <> 0%Z /\
  exists e,
    find (fun e => str_eqb (entry_id e) slug) (rev raw) = Some e /\
    entry_mtime e = mtime.
Proof.
  unfold unchanged. rewrite loadPrev_find.
  destruct (str_eqb slug (lit "__proto__")) eqn:Hproto.
  - apply str_eqb_true in Hproto. split; [discriminate|].
    intros [H _]. contradiction.
  - assert (Hne : slug <> lit "__proto__")
      by (intros H; apply str_eqb_true in H; congruence).
    destruct (find (fun e => str_eqb (entry_id e) slug) (rev raw)) as [e|];
      cbn [option_map].
    + rewrite andb_true_iff, negb_true_iff, Z.eqb_neq, Z.eqb_eq. split.
      * intros [Hnz Heq]. split; [exact Hne|]. split; [congruence|].
        exists e. split; [reflexivity | exact Heq].
      * intros [_ [Hnz [e' [He' Heq]]]]. injection He' as <-.
        split; [congruence | exact Heq].
    + split; [discriminate|]. intros [_ [_ [e [He _]]]]. discriminate He.
Qed.

End MoreMainProperties.

(** ** More on the helpers *)

Lemma lit_inj (a b : string) : lit a = lit b -> a = b.
Proof.
  intros H. rewrite <- (string_of_list_ascii_of_string a),
              <- (string_of_list_ascii_of_string b).
  unfold lit in H. rewrite H. reflexivity.
Qed.

Lemma to_uint_not_Nil (n : nat) : Nat.to_uint n <> Decimal.Nil.
Proof.
  rewrite <- (DecimalNat.Unsigned.of_to n) at 1.
  rewrite DecimalNat.Unsigned.to_of. apply DecimalFacts.unorm_nonnil.
Qed.

Lemma decimal_inj (i j : nat) : decimal i = decimal j -> i = j.
Proof.
  intros H. apply lit_inj in H.
  apply (f_equal NilZero.uint_of_string) in H.
  rewrite !NilZero.usu in H by apply to_uint_not_Nil.
  injection H as H. exact (DecimalNat.Unsigned.to_uint_inj _ _ H).
Qed.

Lemma mapi_from_ids (slug : str) (k : nat) (l : list str) (id : str) :
  In id (map chunk_id
             (mapi_from (fun p i => {| chunk_id := paraId slug i; chunk_text := p |})
                        k l)) ->
  exists i, k <= i /\ id = paraId slug i.
Proof.
  revert k. induction l as [|p l IH]; intros k H; [contradiction|].
  cbn in H. destruct H as [<- | H].
  - exists k. split; [lia | reflexivity].
  - destruct (IH (S k) H) as [i [Hi ->]]. exists i. split; [lia | reflexivity].
Qed.

(** X9. The chunks of a text have pairwise distinct ids. *)
Theorem chunk_ids_distinct (text slug : str) :
  List.NoDup (map chunk_id (chunkText text slug)).
Proof.
  unfold chunkText.
  generalize (List.filter (fun p => 40 <? length (trim p)) (splitOnBlankLines text)).
  generalize 0.
  intros k l. revert k. induction l as [|p l IH]; intros k; cbn; constructor.
  - intros H. destruct (mapi_from_ids slug (S k) l _ H) as [i [Hi Heq]].
    unfold paraId in Heq. apply app_inv_head in Heq. apply app_inv_head in Heq.
    apply decimal_inj in Heq. lia.
  - apply IH.
Qed.

Lemma SplitsInto_piece (s : str) (ps : list str) (p : str) :
  SplitsInto s ps -> In p ps ->
  noBlankLine p /\ exists a b, s = a ++ p ++ b.
Proof.
  induction 1 as [q Hq | q sep rest ps Hq He Hsep Hr Hrest IH]; intros Hin.
  - destruct Hin as [<- | []]. split; [exact Hq|].
    exists [], []. rewrite app_nil_r. reflexivity.
  - destruct Hin as [<- | Hin].
    + split; [exact Hq|]. exists [], (sep ++ rest). reflexivity.
    + destruct (IH Hin) as [Hp [a [b ->]]]. split; [exact Hp|].
      exists (q ++ sep ++ a), b. rewrite <- !app_assoc. reflexivity.
Qed.

(** X10. The text of every chunk is a contiguous part of the input, has
    no two adjacent line feeds, and has more than 40 code units once
    trimmed. *)
Theorem chunk_texts_are_paragraphs (text slug : str) (c : Chunk) :
  In c (chunkText text slug) ->
  (exists a b, text = a ++ chunk_text c ++ b) /\
  noBlankLine (chunk_text c) /\
  40 < length (trim (chunk_text c)).
Proof.
  intros Hin. apply (in_map chunk_text) in Hin.
  unfold chunkText in Hin. rewrite mapi_from_text in Hin.
  apply filter_In in Hin. destruct Hin as [Hpiece Hlen].
  destruct (SplitsInto_piece text _ _ (proj1 (splitBlank_sound text)) Hpiece)
    as [Hnb Hsub].
  split; [exact Hsub|]. split; [exact Hnb|]. apply Nat.ltb_lt. exact Hlen.
Qed.

Lemma lowerChar_spec (c : ascii) :
  ~ (65 <= nat_of_ascii (lowerChar c) <= 90) /\
  (lowerChar c = "\"%char -> c = "\"%char) /\
  lowerChar (lowerChar c) = lowerChar c.
Proof.
  destruct c as [[] [] [] [] [] [] [] []]; vm_compute;
    (split; [lia | split; [intros H; first [exact H | discriminate H] | reflexivity]]).
Qed.

Lemma replaceAtEnd_In (whole : str -> bool) (s : str) (c : ascii) :
  In c (replaceAtEnd whole s) -> In c s.
Proof.
  destruct (replaceAtEnd_spec whole s) as [[r [Hs _]] | [Hs _]]; intros H.
  - rewrite Hs. apply in_or_app. left. exact H.
  - rewrite Hs in H. exact H.
Qed.

(** X11. A slug that comes from the path has no backslash and no capital
    letter A-Z, and lower-casing it again changes nothing. *)
Theorem path_slug_is_normal (path_relative : str -> str -> str) (filePath : str) :
  (forall c, In c (deriveSlug path_relative filePath None) ->
             c <> "\"%char /\ ~ (65 <= nat_of_ascii c <= 90)) /\
  toLowerCase (deriveSlug path_relative filePath None)
  = deriveSlug path_relative filePath None.
Proof.
  cbn [deriveSlug]. unfold slugOfPath, toLowerCase. split.
  - intros c Hc. apply in_map_iff in Hc. destruct Hc as [d [<- Hd]].
    apply replaceAtEnd_In, replaceAtEnd_In in Hd.
    unfold backslashesToSlashes in Hd. apply in_map_iff in Hd.
    destruct Hd as [x [<- _]].
    destruct (lowerChar_spec (if Ascii.eqb x "\"%char then "/"%char else x))
      as [Hup [Hbs _]].
    split; [|exact Hup]. intros H. apply Hbs in H.
    destruct (Ascii.eqb x "\"%char) eqn:Hx; [discriminate H|].
    subst x. discriminate Hx.
  - rewrite map_map. apply map_ext. intros c. apply lowerChar_spec.
Qed.

Lemma singleSpaced_app (a b : str) :
  singleSpaced (a ++ b) -> singleSpaced a /\ singleSpaced b.
Proof.
  induction a as [|c a IH]; intros H; [split; [exact I | exact H]|].
  cbn [app singleSpaced] in H. destruct H as [Hhead Htail].
  destruct (IH Htail) as [Ha Hb]. split; [|exact Hb].
  cbn [singleSpaced]. split; [|exact Ha].
  destruct a as [|d a]; [exact I | exact Hhead].
Qed.

Lemma replaceSpaceRuns_singleSpaced (b : bool) (s : str) :
  singleSpaced (replaceSpaceRuns b s) /\
  (b = true -> forall c t, replaceSpaceRuns b s = c :: t -> isSpace c = false).
Proof.
  revert b. induction s as [|c s IH]; intros b.
  - split; [exact I | intros _ d t H; discriminate H].
  - cbn [replaceSpaceRuns]. destruct (isSpace c) eqn:Hc.
    + destruct b.
      * apply IH.
      * destruct (IH true) as [Hss Hhead]. split; [|discriminate].
        cbn [singleSpaced]. split; [|exact Hss].
        destruct (replaceSpaceRuns true s) as [|d t] eqn:Hr; [exact I|].
        intros [_ Hd]. rewrite (Hhead eq_refl d t eq_refl) in Hd. discriminate Hd.
    + destruct (IH false) as [Hss _]. split.
      * cbn [singleSpaced]. split; [|exact Hss].
        destruct (replaceSpaceRuns false s); [exact I|].
        intros [Hc' _]. congruence.
      * intros _ d t H. injection H as <- _. exact Hc.
Qed.

Lemma replaceSpaceRuns_fixed (b : bool) (s : str) :
  (forall c, In c s -> isSpace c = true -> c = " "%char) ->
  singleSpaced s ->
  (b = true -> forall c t, s = c :: t -> isSpace c = false) ->
  replaceSpaceRuns b s = s.
Proof.
  revert b. induction s as [|c s IH]; intros b Hsp Hss Hb; [reflexivity|].
  cbn [replaceSpaceRuns]. cbn [singleSpaced] in Hss. destruct Hss as [Hhead Hss].
  assert (Hsp' : forall d, In d s -> isSpace d = true -> d = " "%char)
    by (intros d Hd; apply Hsp; right; exact Hd).
  destruct (isSpace c) eqn:Hc.
  - destruct b; [rewrite (Hb eq_refl c s eq_refl) in Hc; discriminate Hc|].
    rewrite (Hsp c (or_introl eq_refl) Hc) at 1. f_equal.
    apply IH; try assumption. intros _ d t Hs. subst s.
    apply not_true_is_false. intros Hd.
    apply Hhead. split; [reflexivity | exact Hd].
  - f_equal. apply IH; try assumption. discriminate.
Qed.

(** X12. The plain text is in normal form: no two neighbours of it are
    both white space, and putting plain text through the normalisation of
    [markdownToPlain] again changes nothing. *)
Theorem markdownToPlain_idempotent (strip : str -> str) (md : str) :
  singleSpaced (markdownToPlain strip md) /\
  markdownToPlain (fun plain => plain) (markdownToPlain strip md)
  = markdownToPlain strip md.
Proof.
  set (plain := markdownToPlain strip md).
  assert (Hss : singleSpaced plain).
  { unfold plain, markdownToPlain, trim.
    destruct (replaceSpaceRuns_singleSpaced false (strip md)) as [H _].
    destruct (trimStart_split (replaceSpaceRuns false (strip md))) as [ws [Hs _]].
    rewrite Hs in H. apply singleSpaced_app in H. destruct H as [_ H].
    destruct (trimEnd_split (trimStart (replaceSpaceRuns false (strip md))))
      as [ws' [Hs' _]].
    rewrite Hs' in H. apply singleSpaced_app in H. exact (proj1 H). }
  split; [exact Hss|].
  unfold markdownToPlain at 1. rewrite replaceSpaceRuns_fixed.
  - apply trim_idem.
  - intros c Hc. apply trim_In in Hc. exact (replaceSpaceRuns_space _ _ _ Hc).
  - exact Hss.
  - discriminate.
Qed.

(** ** The copy of the model files *)

Lemma Node_induction (P : Node -> Prop) :
  (forall data, P (File data)) ->
  (forall es, Forall (fun e => P (snd e)) es -> P (Dir es)) ->
  forall n, P n.
Proof.
  intros Hfile Hdir. fix IH 1. intros [data | es].
  - apply Hfile.
  - apply Hdir. induction es as [|[name c] es IHes]; constructor.
    + apply IH.
    + exact IHes.
Qed.

Lemma wellFormed_Dir (es : list (str * Node)) :
  wellFormed (Dir es) <->
  List.NoDup (map fst es) /\ Forall (fun e => wellFormed (snd e)) es.
Proof.
  cbn [wellFormed]. split; intros [Hnd Hall]; (split; [exact Hnd|]); clear Hnd.
  - induction es as [|[name c] es IH]; constructor.
    + exact (proj1 Hall).
    + apply IH. exact (proj2 Hall).
  - induction es as [|[name c] es IH]; [exact I|].
    inversion Hall as [|? ? Hc Hes]; subst. split; [exact Hc | exact (IH Hes)].
Qed.

Lemma copyTree_Dir (es : list (str * Node)) (dest : option Node) :
  copyTree (Dir es) dest =
    match mkdirRecursive dest with
    | None => (Failed MkdirThrew, dest)
    | Some start => let (r, d') := copyEntries es start in (r, Some (Dir d'))
    end.
Proof. reflexivity. Qed.

Lemma copyTree_Copied (src : Node) (dest r : option Node) :
  copyTree src dest = (Copied, r) -> exists n, r = Some n.
Proof.
  destruct src as [data | es].
  - cbn. destruct dest as [[x | d] |]; intros H; try discriminate H;
      injection H as <-; eexists; reflexivity.
  - rewrite copyTree_Dir. destruct (mkdirRecursive dest); [|discriminate].
    destruct (copyEntries es l) as [r' d']. intros H. injection H as _ <-.
    eexists. reflexivity.
Qed.

Lemma str_eqb_refl (a : str) : str_eqb a a = true.
Proof. apply str_eqb_true. reflexivity. Qed.

Lemma str_eqb_false (a b : str) : a <> b -> str_eqb a b = false.
Proof.
  intros H. apply not_true_is_false. intros Heq. apply str_eqb_true in Heq.
  contradiction.
Qed.

Lemma lookupEntry_setEntry_eq (name : str) (x : Node) (d : list (str * Node)) :
  lookupEntry name (setEntry name x d) = Some x.
Proof.
  unfold lookupEntry. induction d as [|[k y] d IH]; cbn.
  - rewrite str_eqb_refl. reflexivity.
  - destruct (str_eqb k name) eqn:Hk; cbn; rewrite Hk; [reflexivity | exact IH].
Qed.

Lemma lookupEntry_setEntry_ne (name other : str) (x : Node) (d : list (str * Node)) :
  name <> other ->
  lookupEntry other (setEntry name x d) = lookupEntry other d.
Proof.
  intros Hne. unfold lookupEntry. induction d as [|[k y] d IH]; cbn.
  - rewrite (str_eqb_false name other Hne). reflexivity.
  - destruct (str_eqb k name) eqn:Hk; cbn.
    + apply str_eqb_true in Hk. subst k.
      rewrite (str_eqb_false name other Hne). reflexivity.
    + destruct (str_eqb k other); [reflexivity | exact IH].
Qed.

Lemma lookupEntry_fresh (name : str) (d : list (str * Node)) :
  ~ In name (map fst d) -> lookupEntry name d = None.
Proof.
  unfold lookupEntry. induction d as [|[k y] d IH]; intros H; [reflexivity|].
  cbn. rewrite str_eqb_false.
  - apply IH. intros Hin. apply H. right. exact Hin.
  - intros ->. apply H. left. reflexivity.
Qed.

Lemma setEntry_fresh (name : str) (x : Node) (d : list (str * Node)) :
  ~ In name (map fst d) -> setEntry name x d = d ++ [(name, x)].
Proof.
  induction d as [|[k y] d IH]; intros H; [reflexivity|].
  cbn. rewrite str_eqb_false.
  - f_equal. apply IH. intros Hin. apply H. right. exact Hin.
  - intros ->. apply H. left. reflexivity.
Qed.

Lemma lookupEntry_In (name : str) (c : Node) (d : list (str * Node)) :
  List.NoDup (map fst d) -> In (name, c) d -> lookupEntry name d = Some c.
Proof.
  unfold lookupEntry. induction d as [|[k y] d IH]; intros Hnd Hin; [contradiction|].
  cbn in Hnd. inversion Hnd as [|? ? Hk Hnd']; subst. cbn.
  destruct Hin as [Heq | Hin].
  - injection Heq as -> ->. rewrite str_eqb_refl. reflexivity.
  - rewrite str_eqb_false; [exact (IH Hnd' Hin)|].
    intros ->. apply Hk. apply (in_map fst) in Hin. exact Hin.
Qed.

Lemma lookupEntry_Some_In (name : str) (c : Node) (d : list (str * Node)) :
  lookupEntry name d = Some c -> In (name, c) d.
Proof.
  unfold lookupEntry.
  destruct (find (fun e => str_eqb (fst e) name) d) as [[k y]|] eqn:Hf;
    [|discriminate].
  cbn. intros H. injection H as ->. apply find_some in Hf.
  destruct Hf as [Hin Hk]. apply str_eqb_true in Hk. cbn in Hk. subst k. exact Hin.
Qed.

Lemma setEntry_same (name : str) (c : Node) (d : list (str * Node)) :
  lookupEntry name d = Some c -> setEntry name c d = d.
Proof.
  unfold lookupEntry. induction d as [|[k y] d IH]; [discriminate|].
  cbn. destruct (str_eqb k name) eqn:Hk; cbn.
  - intros H. injection H as ->. reflexivity.
  - intros H. f_equal. exact (IH H).
Qed.

(** The loop leaves alone what the source does not name. *)
Lemma copyEntries_other (es d d' : list (str * Node)) (r : FsResult) (name : str) :
  copyEntries es d = (r, d') -> ~ In name (map fst es) ->
  lookupEntry name d' = lookupEntry name d.
Proof.
  revert d. induction es as [|[k c] es IH]; intros d Hrun Hnot.
  - cbn in Hrun. injection Hrun as _ <-. reflexivity.
  - cbn [copyEntries] in Hrun.
    assert (Hk : k <> name) by (intros ->; apply Hnot; left; reflexivity).
    assert (Hnot' : ~ In name (map fst es))
      by (intros H; apply Hnot; right; exact H).
    destruct (copyTree c (lookupEntry k d)) as [[|e] [c'|]].
    + rewrite (IH _ Hrun Hnot'). apply lookupEntry_setEntry_ne. exact Hk.
    + exact (IH _ Hrun Hnot').
    + injection Hrun as _ <-. apply lookupEntry_setEntry_ne. exact Hk.
    + injection Hrun as _ <-. reflexivity.
Qed.

(** After a completed loop every entry of the source has its copy in the
    destination. *)
Lemma copyEntries_arrived (es d d' : list (str * Node)) (name : str) (c : Node) :
  copyEntries es d = (Copied, d') -> List.NoDup (map fst es) ->
  In (name, c) es ->
  exists old c', copyTree c old = (Copied, Some c') /\ lookupEntry name d' = Some c'.
Proof.
  revert d. induction es as [|[k x] es IH]; intros d Hrun Hnd Hin; [contradiction|].
  cbn [copyEntries] in Hrun. cbn in Hnd. inversion Hnd as [|? ? Hk Hnd']; subst.
  destruct (copyTree x (lookupEntry k d)) as [[|e] r] eqn:Hcopy.
  2:{ destruct r; discriminate Hrun. }
  destruct (copyTree_Copied _ _ _ Hcopy) as [x' ->].
  destruct Hin as [Heq | Hin].
  - injection Heq as -> ->. exists (lookupEntry name d), x'. split; [exact Hcopy|].
    rewrite (copyEntries_other _ _ _ _ name Hrun Hk).
    apply lookupEntry_setEntry_eq.
  - exact (IH _ Hrun Hnd' Hin).
Qed.

Lemma copyEntries_fresh (es d : list (str * Node)) :
  List.NoDup (map fst es) ->
  (forall name, In name (map fst es) -> ~ In name (map fst d)) ->
  Forall (fun e => copyTree (snd e) None = (Copied, Some (snd e))) es ->
  copyEntries es d = (Copied, d ++ es).
Proof.
  revert d. induction es as [|[k c] es IH]; intros d Hnd Hdisj Hall.
  - cbn. rewrite app_nil_r. reflexivity.
  - cbn in Hnd. inversion Hnd as [|? ? Hk Hnd']; subst.
    inversion Hall as [|? ? Hc Hall']; subst. cbn [snd] in Hc.
    assert (Hkd : ~ In k (map fst d)) by (apply Hdisj; left; reflexivity).
    cbn [copyEntries]. rewrite (lookupEntry_fresh k d Hkd), Hc.
    rewrite (setEntry_fresh k c d Hkd), IH; try assumption.
    + rewrite <- app_assoc. reflexivity.
    + intros name Hname Hin. rewrite map_app in Hin. apply in_app_or in Hin.
      destruct Hin as [Hin | [<- | []]].
      * apply (Hdisj name); [right; exact Hname | exact Hin].
      * apply Hk. exact Hname.
Qed.

Lemma copyTree_fresh (src : Node) :
  wellFormed src -> copyTree src None = (Copied, Some src).
Proof.
  induction src as [data | es IH] using Node_induction; intros Hwf; [reflexivity|].
  apply wellFormed_Dir in Hwf. destruct Hwf as [Hnd Hall].
  rewrite copyTree_Dir. cbn [mkdirRecursive].
  rewrite (copyEntries_fresh es []); [reflexivity | exact Hnd | |].
  - intros name _ [].
  - rewrite List.Forall_forall in *. intros e He. apply IH; [exact He|].
    exact (Hall e He).
Qed.

Lemma copyEntries_same (es d : list (str * Node)) :
  (forall name c, In (name, c) es -> lookupEntry name d = Some c) ->
  Forall (fun e => copyTree (snd e) (Some (snd e)) = (Copied, Some (snd e))) es ->
  copyEntries es d = (Copied, d).
Proof.
  induction es as [|[k c] es IH]; intros Hin Hall; [reflexivity|].
  inversion Hall as [|? ? Hc Hall']; subst. cbn [snd] in Hc.
  cbn [copyEntries]. rewrite (Hin k c (or_introl eq_refl)), Hc.
  rewrite (setEntry_same k c d (Hin k c (or_introl eq_refl))).
  apply IH; [|exact Hall']. intros name x Hx. apply Hin. right. exact Hx.
Qed.

Lemma copyTree_same (src : Node) :
  wellFormed src -> copyTree src (Some src) = (Copied, Some src).
Proof.
  induction src as [data | es IH] using Node_induction; intros Hwf; [reflexivity|].
  apply wellFormed_Dir in Hwf. destruct Hwf as [Hnd Hall].
  rewrite copyTree_Dir. cbn [mkdirRecursive].
  rewrite (copyEntries_same es es); [reflexivity | |].
  - intros name c Hin. exact (lookupEntry_In name c es Hnd Hin).
  - rewrite List.Forall_forall in *. intros e He. apply IH; [exact He|].
    exact (Hall e He).
Qed.

(** X13. Copying a directory in which no name is listed twice to a
    destination that does not exist completes and leaves at the
    destination the same tree. *)
Theorem copyDir_fresh (es : list (str * Node)) :
  wellFormed (Dir es) ->
  copyDir (Some (Dir es)) None = (Copied, Some (Dir es)).
Proof. intros Hwf. unfold copyDir. exact (copyTree_fresh (Dir es) Hwf). Qed.

(** X14. Copying such a directory a second time to the destination of a
    first copy completes and changes nothing. *)
Theorem copyDir_again (es : list (str * Node)) :
  wellFormed (Dir es) ->
  copyDir (Some (Dir es)) (snd (copyDir (Some (Dir es)) None))
  = copyDir (Some (Dir es)) None.
Proof.
  intros Hwf. unfold copyDir.
  rewrite (copyTree_fresh (Dir es) Hwf). cbn [snd].
  exact (copyTree_same (Dir es) Hwf).
Qed.

(** X15. After a completed copy to any destination, every file of the
    source is at the same relative path of the destination, with the same
    content. *)
Theorem copyDir_files_arrive (es : list (str * Node)) (dest dest' : option Node)
        (p : list str) (data : str) :
  wellFormed (Dir es) ->
  copyDir (Some (Dir es)) dest = (Copied, dest') ->
  nodeAt (Dir es) p = Some (File data) ->
  exists n, dest' = Some n /\ nodeAt n p = Some (File data).
Proof.
  unfold copyDir. intros Hwf Hrun Hfile.
  destruct (copyTree_Copied _ _ _ Hrun) as [n ->]. exists n. split; [reflexivity|].
  revert dest n p Hwf Hrun Hfile. generalize (Dir es). clear es.
  induction n as [data0 | es IH] using Node_induction;
    intros dest n' p Hwf Hrun Hfile.
  - destruct p as [|name p]; [|discriminate Hfile].
    cbn in Hfile. injection Hfile as ->.
    cbn in Hrun. destruct dest as [[x | d] |]; try discriminate Hrun;
      injection Hrun as <-; reflexivity.
  - destruct p as [|name p]; [discriminate Hfile|].
    cbn [nodeAt] in Hfile.
    destruct (lookupEntry name es) as [c|] eqn:Hc; [|discriminate Hfile].
    apply lookupEntry_Some_In in Hc.
    apply wellFormed_Dir in Hwf. destruct Hwf as [Hnd Hall].
    rewrite copyTree_Dir in Hrun.
    destruct (mkdirRecursive dest) as [start|]; [|discriminate Hrun].
    destruct (copyEntries es start) as [r d'] eqn:Hloop.
    injection Hrun as -> <-.
    destruct (copyEntries_arrived _ _ _ name c Hloop Hnd Hc) as [old [c' [Hcopy Hlook]]].
    cbn [nodeAt]. rewrite Hlook.
    rewrite List.Forall_forall in IH, Hall.
    exact (IH (name, c) Hc old c' p (Hall (name, c) Hc) Hcopy Hfile).
Qed.

(** X16. However a copy into an existing directory ends, the entries of
    that directory whose names the source does not list are what they
    were. *)
Theorem copyDir_keeps_other_entries (es d : list (str * Node)) (name : str) :
  ~ In name (map fst es) ->
  exists d',
    snd (copyDir (Some (Dir es)) (Some (Dir d))) = Some (Dir d') /\
    lookupEntry name d' = lookupEntry name d.
Proof.
  intros Hnot. unfold copyDir. rewrite copyTree_Dir. cbn [mkdirRecursive].
  destruct (copyEntries es d) as [r d'] eqn:Hloop. exists d'.
  split; [reflexivity|]. exact (copyEntries_other _ _ _ _ name Hloop Hnot).
Qed.

Lemma copyModel_some (cache public : option Node) :
  exists n, copyModel cache public = Some n.
Proof.
  unfold copyModel. destruct public as [n|]; [exists n; reflexivity|].
  unfold copyDir. destruct cache as [[data | es] |]; cbn [mkdirRecursive snd].
  - eexists. reflexivity.
  - rewrite copyTree_Dir. cbn [mkdirRecursive].
    destruct (copyEntries es []) as [r d']. eexists. reflexivity.
  - eexists. reflexivity.
Qed.

(** X17. Once the copy step has run, later runs of it change nothing,
    whatever the cache holds by then and however the first copy ended; in
    particular a first run without a cache leaves an empty directory that
    is never filled. *)
Theorem copyModel_settles (cache cache' public : option Node) :
  copyModel cache' (copyModel cache public) = copyModel cache public /\
  copyModel cache' (copyModel None None) = Some (Dir []).
Proof.
  split; [|reflexivity].
  destruct (copyModel_some cache public) as [n ->]. reflexivity.
Qed.

(** X18. With a cache in which no name is listed twice and nothing at the
    public path, the copy step leaves the tree of the cache at the public
    path. *)
Theorem copyModel_fresh (es : list (str * Node)) :
  wellFormed (Dir es) ->
  copyModel (Some (Dir es)) None = Some (Dir es).
Proof.
  intros Hwf. unfold copyModel, copyDir.
  rewrite (copyTree_fresh (Dir es) Hwf). reflexivity.
Qed.

(** ** Instances of the further properties *)

Lemma extractor_text_origin_witness :
  exists filePath mtime contentRaw content fm,
    In filePath (glob carryWorld) /\
    stat carryWorld filePath = Some mtime /\
    readFile carryWorld filePath = Some contentRaw /\
    matter carryWorld contentRaw = Some (content, fm) /\
    fm_draft fm = false /\
    unchanged (loadPrev (EMBEDDING_FILE carryWorld))
              (deriveSlug (path_relative carryWorld) filePath (fm_slug fm)) mtime
    = false /\
    40 < length (markdownToPlain (strip carryWorld) content) /\
    promptText (lit "A") [] para50
    = promptText
        (orElse (fm_title fm)
                (deriveSlug (path_relative carryWorld) filePath (fm_slug fm)))
        (orElse (fm_description fm) [])
        (markdownToPlain (strip carryWorld) content).
Proof.
  apply (extractor_text_origin carryWorld
           [promptText (lit "A") [] para50; promptText (lit "B") [] para50]).
  - vm_compute. left. reflexivity.
  - left. reflexivity.
Defined.

Lemma written_record_count_witness :
  exists idx,
    artifact (main fortyWorld) = Some idx /\
    length idx =
      (if length (pushedItems fortyWorld) <? 32
       then Nat.min (length (pushedItems fortyWorld)) 16
       else length (pushedItems fortyWorld) - length (pushedItems fortyWorld) mod 16).
Proof.
  eexists. split; [vm_compute; reflexivity|].
  apply (written_record_count fortyWorld); vm_compute; reflexivity.
Defined.

Example forty_posts_thirty_two_records :
  length (pushedItems fortyWorld) = 40 /\
  option_map (@length _) (artifact (main fortyWorld)) = Some 32.
Proof. split; vm_compute; reflexivity. Qed.

Lemma index_complete_iff_witness :
  exists idx,
    artifact (main seventeenWorld) = Some idx /\
    (map entryMeta idx = map item_meta (pushedItems seventeenWorld) <->
     (length (pushedItems seventeenWorld) <= 16 \/
      (32 <= length (pushedItems seventeenWorld) /\
       length (pushedItems seventeenWorld) mod 16 = 0))).
Proof.
  eexists. split; [vm_compute; reflexivity|].
  apply (index_complete_iff seventeenWorld); vm_compute; reflexivity.
Defined.

Lemma written_record_shape_witness :
  exists idx e,
    artifact (main carryWorld) = Some idx /\ In e idx /\
    exists filePath mtime contentRaw content fm texts outputs i,
      In filePath (glob carryWorld) /\
      stat carryWorld filePath = Some mtime /\
      readFile carryWorld filePath = Some contentRaw /\
      matter carryWorld contentRaw = Some (content, fm) /\
      fm_draft fm = false /\
      entry_slug e = deriveSlug (path_relative carryWorld) filePath (fm_slug fm) /\
      entry_id e = entry_slug e ++ lit "#para-0" /\
      entry_title e = orElse (fm_title fm) (entry_slug e) /\
      entry_description e = orElse (fm_description fm) [] /\
      entry_mtime e = mtime /\
      In texts (extractorCalls (main carryWorld)) /\
      extractor carryWorld texts = Some outputs /\
      nth_error texts i
      = Some (promptText (entry_title e) (entry_description e)
                         (markdownToPlain (strip carryWorld) content)) /\
      nth_error outputs i = Some (entry_vector e).
Proof.
  eexists. eexists. split; [vm_compute; reflexivity|].
  split; [left; reflexivity|].
  eapply (written_record_shape carryWorld).
  - reflexivity.
  - vm_compute. reflexivity.
  - left. reflexivity.
Defined.

Lemma unreadable_file_is_fatal_witness :
  (exists e, outcome (main unreadableWorld) = Abrupt e) /\
  artifact (main unreadableWorld) = Some [e1].
Proof.
  apply (unreadable_file_is_fatal unreadableWorld (lit "src/data/blog/gone.md")).
  - right. left. reflexivity.
  - left. reflexivity.
Defined.

Lemma index_ids_unique_witness :
  exists idx,
    artifact (main carryWorld) = Some idx /\ List.NoDup (map entry_id idx).
Proof.
  eexists. split; [vm_compute; reflexivity|].
  apply (index_ids_unique carryWorld).
  - vm_compute. constructor; [intros [H | []]; discriminate H|].
    constructor; [intros []|]. constructor.
  - intros f f' slug Hf Hf'. vm_compute in Hf, Hf'.
    destruct Hf as [<- | [<- | []]]; destruct Hf' as [<- | [<- | []]];
      vm_compute; intros H1 H2; first [reflexivity | rewrite <- H1 in H2; discriminate H2].
  - reflexivity.
  - vm_compute. reflexivity.
Defined.

Lemma unchanged_needs_id_witness :
  exists raw e,
    EMBEDDING_FILE skipWorld = Some raw /\ In e raw /\
    entry_id e = lit "a" /\ entry_mtime e = 100%Z /\ 100%Z <> 0%Z.
Proof. apply (unchanged_needs_id skipWorld (lit "a") 100). reflexivity. Defined.

Lemma chunk_texts_are_paragraphs_witness :
  (exists a b, para41 ++ [nl; nl] ++ para40 = a ++ para41 ++ b) /\
  noBlankLine para41 /\
  40 < length (trim para41).
Proof.
  apply (chunk_texts_are_paragraphs (para41 ++ [nl; nl] ++ para40) (lit "post")
           {| chunk_id := lit "post#para-0"; chunk_text := para41 |}).
  left. reflexivity.
Defined.

Lemma modelCache_wellFormed : wellFormed modelCache.
Proof.
  cbn. repeat split.
  - constructor; [intros [H | []]; discriminate H|].
    constructor; [intros []|]. constructor.
  - constructor; [intros []|]. constructor.
Qed.

Lemma copyDir_fresh_witness :
  copyDir (Some modelCache) None = (Copied, Some modelCache).
Proof. apply copyDir_fresh. exact modelCache_wellFormed. Defined.

Lemma copyDir_again_witness :
  copyDir (Some modelCache) (snd (copyDir (Some modelCache) None))
  = copyDir (Some modelCache) None.
Proof. apply copyDir_again. exact modelCache_wellFormed. Defined.

Lemma copyDir_files_arrive_witness :
  exists n,
    Some (Dir [(lit "onnx", Dir [(lit "old.onnx", File (lit "stale"));
                                 (lit "model_quantized.onnx", File (lit "weights"))]);
               (lit "config.json", File (lit "{}"))]) = Some n /\
    nodeAt n [lit "onnx"; lit "model_quantized.onnx"] = Some (File (lit "weights")).
Proof.
  apply (copyDir_files_arrive
           [(lit "config.json", File (lit "{}"));
            (lit "onnx", Dir [(lit "model_quantized.onnx", File (lit "weights"))])]
           (Some (Dir [(lit "onnx", Dir [(lit "old.onnx", File (lit "stale"))])]))).
  - exact modelCache_wellFormed.
  - vm_compute. reflexivity.
  - vm_compute. reflexivity.
Defined.

Lemma copyDir_keeps_other_entries_witness :
  exists d',
    snd (copyDir (Some modelCache) (Some (Dir [(lit "README.md", File (lit "notes"))])))
    = Some (Dir d') /\
    lookupEntry (lit "README.md") d'
    = lookupEntry (lit "README.md") [(lit "README.md", File (lit "notes"))].
Proof.
  apply (copyDir_keeps_other_entries
           [(lit "config.json", File (lit "{}"));
            (lit "onnx", Dir [(lit "model_quantized.onnx", File (lit "weights"))])]).
  vm_compute. intros [H | [H | []]]; discriminate H.
Defined.

Lemma copyModel_fresh_witness :
  copyModel (Some modelCache) None = Some modelCache.
Proof. apply copyModel_fresh. exact modelCache_wellFormed. Defined.

(** ** A rebuild over the artifact of a first build *)

Section Rebuild.

Context {vec : Type}.
Variable w : World vec.

Lemma processFile_prev (prev prev' : gmap str Z) (filePath : str) :
  (forall mtime contentRaw content fm,
      stat w filePath = Some mtime -> readFile w filePath = Some contentRaw ->
      matter w contentRaw = Some (content, fm) -> fm_draft fm = false ->
      unchanged prev (deriveSlug (path_relative w) filePath (fm_slug fm)) mtime
      = unchanged prev' (deriveSlug (path_relative w) filePath (fm_slug fm)) mtime) ->
  forall v, processFile w prev filePath v = processFile w prev' filePath v.
Proof.
  intros H v. unfold processFile, bind, orThrow, ret, throw.
  destruct (stat w filePath) as [mtime|] eqn:Hs; [|reflexivity].
  cbv beta iota.
  destruct (readFile w filePath) as [contentRaw|] eqn:Hr; [|reflexivity].
  cbv beta iota.
  destruct (matter w contentRaw) as [[content fm]|] eqn:Hm; [|reflexivity].
  cbv beta iota. cbn [fst snd].
  destruct (fm_draft fm) eqn:Hd; [reflexivity|].
  rewrite (H mtime contentRaw content fm eq_refl eq_refl Hm Hd). reflexivity.
Qed.

Lemma forEach_ext {A} (f g : A -> M vec unit) (l : list A) :
  (forall x, In x l -> forall v, f x v = g x v) ->
  forall v, forEach f l v = forEach g l v.
Proof.
  induction l as [|x l IH]; intros H v; [reflexivity|].
  cbn [forEach]. unfold bind. rewrite (H x (or_introl eq_refl) v).
  destruct (g x v) as [[u|e] v1]; [|reflexivity].
  apply IH. intros y Hy. apply H. right. exact Hy.
Qed.

Lemma main_setArtifact (file : option (list (IndexEntry vec))) :
  main (setArtifact w file) =
    match glob w with
    | [] => {| outcome := Normal tt; artifact := Some []; extractorCalls := [] |}
    | _ :: _ =>
        match (forEach (processFile w (loadPrev file)) (glob w) ;;; flushBatch w) noVars with
        | (Normal _, v) =>
            {| outcome := Normal tt; artifact := Some (embeddings v);
               extractorCalls := calls v |}
        | (Abrupt e, v) =>
            {| outcome := Abrupt e; artifact := file; extractorCalls := calls v |}
        end
    end.
Proof. reflexivity. Qed.

Lemma completed_entry_id (idx : list (IndexEntry vec)) (e : IndexEntry vec) :
  outcome (main w) = Normal tt -> artifact (main w) = Some idx -> In e idx ->
  exists filePath slug,
    In filePath (glob w) /\ slugOf w filePath = Some slug /\
    entry_id e = slug ++ lit "#para-0".
Proof.
  intros Hout Hart Hin.
  destruct (completed_artifact_origin w idx e Hout Hart Hin) as [item [Hitem Hmeta]].
  unfold pushedItems in Hitem. apply in_flat_map in Hitem.
  destruct Hitem as [filePath [Hfile Hdoc]].
  destruct (docItems_id w _ _ _ Hdoc) as [slug [Hslug [Hid _]]].
  exists filePath, slug. split; [exact Hfile|]. split; [exact Hslug|].
  rewrite <- Hid, <- Hmeta. reflexivity.
Qed.

(** X19. A rebuild over the artifact of a completed first build skips no
    file: when no slug of the corpus is another slug followed by
    [#para-0], the rebuild makes the same calls of the extractor, completes
    and writes the same index again. *)
Theorem rebuild_is_full_build (idx : list (IndexEntry vec)) :
  EMBEDDING_FILE w = None ->
  outcome (main w) = Normal tt ->
  artifact (main w) = Some idx ->
  (forall f g s t, In f (glob w) -> In g (glob w) ->
                   slugOf w f = Some s -> slugOf w g = Some t ->
                   t <> s ++ lit "#para-0") ->
  main (setArtifact w (Some idx)) = main w.
Proof.
  intros Hnone Hout Hart Hslugs.
  assert (Hsame : forall f, In f (glob w) -> forall v,
             processFile w (loadPrev (Some idx)) f v
             = processFile w (loadPrev (EMBEDDING_FILE w)) f v).
  { intros f Hf. apply processFile_prev.
    intros mtime contentRaw content fm Hs Hr Hm Hd.
    rewrite Hnone.
    replace (unchanged (loadPrev None) _ mtime) with false
      by (unfold unchanged, loadPrev; rewrite lookup_empty; reflexivity).
    apply not_true_is_false. intros Hun.
    unfold unchanged in Hun.
    destruct (loadPrev (Some idx) !! _) as [m|] eqn:Hlook; [|discriminate Hun].
    destruct (loadPrev_origin _ _ _ Hlook) as [raw [e [Hraw [He [Hid _]]]]].
    injection Hraw as <-.
    destruct (completed_entry_id idx e Hout Hart He) as [g [slug [Hg [Hslug Heid]]]].
    apply (Hslugs g f slug (deriveSlug (path_relative w) f (fm_slug fm)) Hg Hf Hslug).
    - unfold slugOf, frontMatterOf. rewrite Hr, Hm. reflexivity.
    - rewrite <- Hid. exact Heid. }
  rewrite main_setArtifact. revert Hout. unfold main.
  destruct (glob w) as [|f files] eqn:Hglob; [reflexivity|].
  unfold bind. rewrite (forEach_ext _ _ (f :: files) Hsame).
  destruct (forEach (processFile w (loadPrev (EMBEDDING_FILE w))) (f :: files) noVars)
    as [[u|e] v1]; [|discriminate].
  destruct (flushBatch w v1) as [[u'|e] v']; [reflexivity | discriminate].
Qed.

End Rebuild.

Lemma rebuild_is_full_build_witness :
  main (setArtifact seventeenWorld (artifact (main seventeenWorld)))
  = main seventeenWorld.
Proof.
  set (idx := match artifact (main seventeenWorld) with Some i => i | None => [] end).
  change (artifact (main seventeenWorld)) with (Some idx).
  apply (rebuild_is_full_build seventeenWorld idx).
  - reflexivity.
  - vm_compute. reflexivity.
  - vm_compute. reflexivity.
  - intros f g s t _ Hg _ Ht Heq.
    assert (Hhash : existsb (Ascii.eqb "#"%char) t = true).
    { rewrite Heq, existsb_app. apply orb_true_iff. right. reflexivity. }
    clear Heq. vm_compute in Hg.
    repeat (destruct Hg as [<- | Hg];
            [vm_compute in Ht; injection Ht as <-;
             vm_compute in Hhash; discriminate Hhash|]).
    contradiction.
Defined.

Lemma skip_condition_witness :
  lit "a" <> lit "__proto__" /\ 100%Z <> 0%Z /\
  exists e,
    find (fun e => str_eqb (entry_id e) (lit "a")) (rev [oldEntry (lit "a")]) = Some e /\
    entry_mtime e = 100%Z.
Proof.
  apply (proj1 (skip_condition [oldEntry (lit "a")] (lit "a") 100)). reflexivity.
Defined.

Lemma path_slug_is_normal_witness :
  "g"%char <> "\"%char /\ ~ (65 <= nat_of_ascii "g"%char <= 90).
Proof.
  apply (proj1 (path_slug_is_normal relativeUnder
                  (lit "src/data/blog/Guides\Intro/index.md")) "g"%char).
  vm_compute. left. reflexivity.
Defined.
